(** * The Bayeslite shell ([shell/src/core.py]): line accumulation and dispatch

    A shallow embedding of the class [Shell(cmd.Cmd)]: the session object
    is a record, every method is a state-passing function that may
    return, raise an [Exception] or be left by a [KeyboardInterrupt] or
    a [SystemExit], and the collaborators (the BayesDB handle, the
    parser's completeness predicate, the text handed to [eval], a few
    Python builtins) are a record of response functions.  The dispatch inherited from Python's [cmd.Cmd]
    ([parseline], [onecmd], [emptyline], [cmdloop]) is transcribed from
    the standard library module [cmd.py] of Python 2.7. *)

From Stdlib Require Import ZArith Lia Ascii.
From stdpp Require Import base decidable option list sorting gmap strings.

(** ** Python string helpers *)

Definition LF : ascii := "010"%char.
Definition CR : ascii := "013"%char.
Definition nl : string := String LF "".

(** [str.isspace] on one byte: tab, line feed, vertical tab, form feed,
    carriage return, space. *)
Definition py_isspace (c : ascii) : bool :=
  let n := N_of_ascii c in
  ((9 <=? n)%N && (n <=? 13)%N) || (n =? 32)%N.

Fixpoint lstrip (s : string) : string :=
  match s with
  | String c s' => if py_isspace c then lstrip s' else s
  | EmptyString => EmptyString
  end.

Definition rstrip (s : string) : string := String.rev (lstrip (String.rev s)).

(** [s.strip()] *)
Definition strip (s : string) : string := rstrip (lstrip s).

(** [s.split()]: the maximal runs of non-blank bytes. *)
Fixpoint split_go (cur : option string) (s : string) : list string :=
  match s with
  | EmptyString => option_list (String.rev <$> cur)
  | String c s' =>
      if py_isspace c
      then option_list (String.rev <$> cur) ++ split_go None s'
      else split_go (Some (String c (default "" cur))) s'
  end.

Definition split (s : string) : list string := split_go None s.

(** [s.splitlines()] for a byte string: lines end at LF, CR or CR LF,
    and a final terminator opens no further line. *)
Fixpoint splitlines_go (cur : option string) (s : string) : list string :=
  match s with
  | EmptyString => option_list (String.rev <$> cur)
  | String c s' =>
      if decide (c = LF)
      then String.rev (default "" cur) :: splitlines_go None s'
      else if decide (c = CR)
      then String.rev (default "" cur) ::
           match s' with
           | String c' s'' =>
               if decide (c' = LF) then splitlines_go None s''
               else splitlines_go None s'
           | EmptyString => []
           end
      else splitlines_go (Some (String c (default "" cur))) s'
  end.

Definition splitlines (s : string) : list string := splitlines_go None s.

(** [sep.join(l)] *)
Fixpoint join (sep : string) (l : list string) : string :=
  match l with
  | [] => ""
  | [x] => x
  | x :: l' => x +:+ sep +:+ join sep l'
  end.

Fixpoint spaces (n : nat) : string :=
  match n with
  | O => ""
  | S n' => String " " (spaces n')
  end.

(** ['%*s' % (width, s)]: right-justified in [width] columns. *)
Definition rjust (width : nat) (s : string) : string :=
  spaces (width - String.length s) +:+ s.

(** [sorted(...)] on byte strings: the lexicographic order on bytes. *)
Definition sorted (l : list string) : list string := merge_sort String.le l.

(** [max(...)] of a sequence of numbers; Python raises [ValueError] on
    the empty one. *)
Definition py_max (l : list nat) : option nat :=
  match l with
  | [] => None
  | x :: l' => Some (foldr Nat.max x l')
  end.

(** ** Data model *)

(** A value a collaborator hands back. *)
Inductive Value :=
  | VNone
  | VBool (b : bool)
  | VInt (z : Z)
  | VStr (s : string).

(** Python truth value, as used by [if not ...]. *)
Definition truthy (v : Value) : bool :=
  match v with
  | VNone => false
  | VBool b => b
  | VInt z => negb (z =? 0)%Z
  | VStr s => negb (String.eqb s "")
  end.

(** The calls the shell makes on its collaborators.  A call that yields a
    cursor is taken together with the [pretty.pp_cursor] that prints it
    and with the [savepoint()] scope around it. *)
Inductive Call :=
  | Execute (text : string)                          (* bdb.execute(bql) *)
  | ExecuteParams (sql : string) (params : list Value) (* bdb.execute(sql, params) *)
  | SqlExecute (text : string)                       (* bdb.sql_execute(line) *)
  | SqlExecuteParams (sql : string) (params : list Value)
  | PyEval (text : string)                           (* eval(line, globals, locals) *)
  | Trace                                            (* bdb.trace(self._trace) *)
  | SqlTrace                                         (* bdb.sql_trace(self._sql_trace) *)
  | Untrace                                          (* bdb.untrace(self._trace) *)
  | SqlUntrace                                       (* bdb.sql_untrace(self._sql_trace) *)
  | ReadCsv (table pathname : string)                (* bayeslite.bayesdb_read_csv *)
  | LoadCodebook (table pathname : string)           (* bayesdb_load_codebook_csv_file *)
  | LoadLegacyModels (generator table pathname : string)
  | HasTable (table : string)                        (* core.bayesdb_has_table *)
  | GuaranteeColumns (table : string)                (* core.bayesdb_table_guarantee_columns *)
  | HasGenerator (generator : string)                (* core.bayesdb_has_generator *)
  | GetGenerator (generator : string)                (* core.bayesdb_get_generator *)
  | GeneratorHasModel (generator_id : Value) (modelno : Z).

(** How a call ends.  [Raised] is any exception derived from [Exception],
    carrying the text [traceback.format_exc()] gives for it;
    [Interrupted] is a [KeyboardInterrupt], raised in the call or on the
    return from it, before the caller's next statement is run;
    [Exiting] is a [SystemExit].  Neither of the last two is an
    [Exception]. *)
Inductive Ending :=
  | Returned (v : Value)
  | Raised (tb : string)
  | Interrupted
  | Exiting.

(** What a call does as seen from the shell: the chunks written to
    [self.stdout] while it runs (by the pretty-printer and by the trace
    callbacks [_trace] and [_sql_trace], when subscribed), then its end. *)
Record Outcome := mkOutcome { written : list string; ending : Ending }.

(** The bound methods installed as commands. *)
Inductive Method :=
  | MCodebook | MCsv | MDescribe | MHelp | MLoadmodels
  | MPython | MSql | MTrace | MUntrace.

(** What happened in a session, in program order: the prompts shown by
    the reads, the replacements of the buffer object, the calls. *)
Inductive Event :=
  | EvRead (shown : string)         (* raw_input(self.prompt) *)
  | EvClear                         (* self.bql = StringIO.StringIO() *)
  | EvCall (c : Call).

(** The shell object.  [attrs] holds the attributes set by [setattr]:
    the entry at [name] is the attribute ['do_.' + name]. *)
Record Session := mkSession {
  prompt : string;
  bql : string;
  cmds : gset string;
  attrs : gmap string Method;
  traced : bool;
  sql_traced : bool;
  lastcmd : string;
  stdout : list string;
  journal : list Event
}.

(** How a method ends: it returns, an [Exception] leaves it ([Throw],
    with its traceback text), or a [KeyboardInterrupt] or a [SystemExit]
    does. *)
Inductive Result (A : Type) :=
  | Ret (a : A)
  | Throw (tb : string)
  | Interrupt
  | SysExit.
Arguments Ret {A} a.
Arguments Throw {A} tb.
Arguments Interrupt {A}.
Arguments SysExit {A}.

(** The collaborators.  A response may depend on every call made before.
    The completeness predicate is called like the others and may be cut
    like them, but leaves no trace of its own; the text handed to [eval]
    runs inside the interpreter the shell runs in, where it can get hold
    of the shell object and assign its attributes. *)
Record World := mkWorld {
  bql_string_complete_p : list Call -> string -> Result bool;
                                              (* parse.bql_string_complete_p *)
  respond : list Call -> Call -> Outcome;     (* the BayesDB handle and loaders *)
  eval_assigns : list Call -> string -> Session -> Session;
                                              (* the attributes eval(line) assigns *)
  repr : Value -> string;                     (* repr(x) *)
  py_int : string -> option Z;                (* int(token); None is ValueError *)
  py_str : Z -> string;                       (* str(n), '%d' % n *)
  casefold : string -> string;                (* bayeslite.util.casefold *)
  Cmd_do_help : gmap string Method -> string -> list string
                                              (* what cmd.Cmd.do_help(arg) writes *)
}.

Definition def_prompt : string := "bayeslite> ".
Definition bql_prompt : string := "   bql...> ".
Definition sql_prompt : string := "   sql...> ".
Definition python_prompt : string := "python...> ".

(** ** Field updates *)

Definition set_prompt (p : string) (s : Session) : Session :=
  mkSession p (bql s) (cmds s) (attrs s) (traced s) (sql_traced s)
            (lastcmd s) (stdout s) (journal s).

Definition set_bql (b : string) (s : Session) : Session :=
  mkSession (prompt s) b (cmds s) (attrs s) (traced s) (sql_traced s)
            (lastcmd s) (stdout s) (journal s).

Definition set_traced (b : bool) (s : Session) : Session :=
  mkSession (prompt s) (bql s) (cmds s) (attrs s) b (sql_traced s)
            (lastcmd s) (stdout s) (journal s).

Definition set_sql_traced (b : bool) (s : Session) : Session :=
  mkSession (prompt s) (bql s) (cmds s) (attrs s) (traced s) b
            (lastcmd s) (stdout s) (journal s).

Definition set_lastcmd (l : string) (s : Session) : Session :=
  mkSession (prompt s) (bql s) (cmds s) (attrs s) (traced s) (sql_traced s)
            l (stdout s) (journal s).

(** [self.stdout.write(chunk)] *)
Definition put (chunk : string) (s : Session) : Session :=
  mkSession (prompt s) (bql s) (cmds s) (attrs s) (traced s) (sql_traced s)
            (lastcmd s) (stdout s ++ [chunk]) (journal s).

Definition put_all (chunks : list string) (s : Session) : Session :=
  mkSession (prompt s) (bql s) (cmds s) (attrs s) (traced s) (sql_traced s)
            (lastcmd s) (stdout s ++ chunks) (journal s).

Definition record (e : Event) (s : Session) : Session :=
  mkSession (prompt s) (bql s) (cmds s) (attrs s) (traced s) (sql_traced s)
            (lastcmd s) (stdout s) (journal s ++ [e]).

Definition install_attr (name : string) (m : Method) (s : Session) : Session :=
  mkSession (prompt s) (bql s) ({[name]} ∪ cmds s) (<[name:=m]> (attrs s))
            (traced s) (sql_traced s) (lastcmd s) (stdout s) (journal s).

(** The object after the assignments [f] to its attributes: what was
    written and what happened are no attributes, and stay. *)
Definition assigned (f : Session -> Session) (s : Session) : Session :=
  mkSession (prompt (f s)) (bql (f s)) (cmds (f s)) (attrs (f s))
            (traced (f s)) (sql_traced (f s)) (lastcmd (f s))
            (stdout s) (journal s).

(** The calls of a journal, oldest first. *)
Fixpoint calls_of (j : list Event) : list Call :=
  match j with
  | [] => []
  | EvCall c :: j' => c :: calls_of j'
  | _ :: j' => calls_of j'
  end.

(** The prompts shown by the reads of a journal. *)
Fixpoint prompts_shown (j : list Event) : list string :=
  match j with
  | [] => []
  | EvRead p :: j' => p :: prompts_shown j'
  | _ :: j' => prompts_shown j'
  end.

(** ** Methods as state-passing computations *)

Definition M (A : Type) : Type := Session -> Session * Result A.

Definition ret {A} (a : A) : M A := fun s => (s, Ret a).

Definition bind {A B} (m : M A) (k : A -> M B) : M B :=
  fun s =>
    match m s with
    | (s', Ret a) => k a s'
    | (s', Throw tb) => (s', Throw tb)
    | (s', Interrupt) => (s', Interrupt)
    | (s', SysExit) => (s', SysExit)
    end.

Notation "x <- m ;; k" := (bind m (fun x => k))
  (at level 100, m at next level, right associativity).
Notation "m ;;; k" := (bind m (fun _ => k))
  (at level 100, right associativity).

(** A statement that only updates the object. *)
Definition upd (f : Session -> Session) : M unit := fun s => (f s, Ret tt).

Definition write (chunk : string) : M unit := upd (put chunk).

Definition raise {A} (tb : string) : M A := fun s => (s, Throw tb).

(** A call that leaves no trace on the object: it ends as [r]. *)
Definition ended {A} (r : Result A) : M A := fun s => (s, r).

(** [try: m  except Exception: handler]: a [KeyboardInterrupt] and a
    [SystemExit] pass. *)
Definition try_except {A} (m : M A) (handler : string -> M A) : M A :=
  fun s =>
    match m s with
    | (s', Throw tb) => handler tb s'
    | r => r
    end.

(** ** The command registry *)

(** [method.__doc__], line by line as it stands in the source. *)
Definition doc (m : Method) : string :=
  join nl
    match m with
    | MHelp =>
        [ "show help for commands";
          "        [<cmd> ...]";
          "";
          "        Show help for commands.  With no arguments, list all commands.";
          "        " ]
    | MSql =>
        [ "execute a SQL query";
          "        <query>";
          "";
          "        Execute a SQL query on the underlying SQLite database.";
          "        " ]
    | MPython =>
        [ "evaluate a Python expression";
          "        <expression>";
          "";
          "        Evaluate a Python expression in the underlying Python";
          "        interpreter.";
          "";
          "        `bdb' is bound to the BayesDB instance.";
          "        " ]
    | MTrace =>
        [ "trace queries";
          "        [bql|sql]";
          "";
          "        Trace BQL or SQL queries executed in the database.";
          "        Use `.untrace' to undo.";
          "        " ]
    | MUntrace =>
        [ "untrace queries";
          "        [bql|sql]";
          "";
          "        Untrace BQL or SQL queries executed in the database after";
          "        `.trace' traced them.";
          "        " ]
    | MCsv =>
        [ "create table from CSV file";
          "        <table> </path/to/data.csv>";
          "";
          "        Create a SQL table named <table> from the data in";
          "        </path/to/data.csv>.";
          "        " ]
    | MCodebook =>
        [ "load codebook for table";
          "        <table> </path/to/codebook.csv>";
          "";
          "        Load a codebook -- short names, descriptions, and value";
          "        descriptions for the columns of a table -- from a CSV file.";
          "        " ]
    | MLoadmodels =>
        [ "load legacy models";
          "        <generator> <table> </path/to/models.pkl.gz>";
          "";
          "        Create a Crosscat generator named <generator> for the table";
          "        <table> from the legacy models stored in";
          "        </path/to/models.pkl.gz>.";
          "        " ]
    | MDescribe =>
        [ "describe BayesDB entities";
          "        [table(s)|generator(s)|columns|model(s)] [<name>...]";
          "";
          "        Print a human-readable description of the specified BayesDB";
          "        entities.";
          "        " ]
    end.

(** [Shell._installcmd]: [None] is the [AssertionError] of either
    assertion. *)
Definition _installcmd (name : string) (method : Method) (s : Session)
  : option Session :=
  if decide (is_Some (attrs s !! name)) then None
  else if decide (name ∈ cmds s) then None
  else Some (install_attr name method s).

(** The object as [Shell.__init__] has it before the first
    [_installcmd]. *)
Definition blank : Session :=
  mkSession def_prompt "" ∅ ∅ false false "" [] [].

Definition install_all (l : list (string * Method)) (s : Session)
  : option Session :=
  foldl (fun acc nm => acc ≫= _installcmd nm.1 nm.2) (Some s) l.

(** The nine installations of [Shell.__init__], in its order. *)
Definition declared : list (string * Method) :=
  [ ("codebook", MCodebook); ("csv", MCsv); ("describe", MDescribe);
    ("help", MHelp); ("loadmodels", MLoadmodels); ("python", MPython);
    ("sql", MSql); ("trace", MTrace); ("untrace", MUntrace) ].

(** [Shell.__init__] *)
Definition Shell_init : option Session := install_all declared blank.

(** [_cmds] and the installed attributes name the same commands. *)
Definition registry_consistent (s : Session) : Prop :=
  ∀ name, name ∈ cmds s ↔ is_Some (attrs s !! name).

(** ** The methods of [Shell] *)

Section Shell.

Context (W : World).

(** A call on a collaborator: it is journalled, what it prints reaches
    [self.stdout], and it ends as the collaborator decides. *)
Definition call (c : Call) : M Value :=
  fun s =>
    let o := respond W (calls_of (journal s)) c in
    let s' := put_all (written o) (record (EvCall c) s) in
    match ending o with
    | Returned v => (s', Ret v)
    | Raised tb => (s', Throw tb)
    | Interrupted => (s', Interrupt)
    | Exiting => (s', SysExit)
    end.

Definition farewell : string := nl +:+ "Moriturus te querio." +:+ nl.

(** [Shell.default] *)
Definition default (line : string) : M bool :=
  if decide (line = "EOF") then
    write farewell ;;; ret true
  else
    upd (fun s => set_bql (bql s +:+ line) s) ;;;
    upd (fun s => set_bql (bql s +:+ nl) s) ;;;
    fun s =>
      let text := bql s in
      (complete <- ended (bql_string_complete_p W (calls_of (journal s)) text) ;;
       if complete then
         upd (fun s => record EvClear (set_bql "" s)) ;;;
         upd (set_prompt def_prompt) ;;;
         try_except (call (Execute text) ;;; ret tt)
                    (fun tb => write tb) ;;;
         ret false
       else
         upd (set_prompt bql_prompt) ;;;
         ret false) s.

(** The first lines of a docstring, stripped:
    [[line.strip() for line in method.__doc__.splitlines()]]. *)
Definition doc_lines (m : Method) : list string :=
  strip <$> splitlines (doc m).

Definition help_line (pad : nat) (cmd summary : string) : string :=
  " " +:+ rjust pad ("." +:+ cmd) +:+ "    " +:+ summary +:+ nl.

Definition help_footer : string :=
  "Type `.help <cmd>' for help on the command <cmd>." +:+ nl.

(** The loop of [dot_help] over [sorted(self._cmds)]. *)
Fixpoint help_list (pad : nat) (names : list string) : M unit :=
  match names with
  | [] => ret tt
  | cmd :: rest =>
      fun s =>
        match attrs s !! cmd with
        | None => raise ("AttributeError: do_." +:+ cmd) s
        | Some method =>
            match doc_lines method with
            | d0 :: _ :: _ =>
                (write (help_line pad cmd d0) ;;; help_list pad rest) s
            | _ => raise "AssertionError" s
            end
        end
  end.

(** The loop of [dot_help] over the tokens of its argument. *)
Fixpoint help_topics (tokens : list string) : M unit :=
  match tokens with
  | [] => ret tt
  | cmd :: rest =>
      fun s =>
        match attrs s !! cmd with
        | None =>
            write ("No such command " +:+ repr W (VStr cmd) +:+ "." +:+ nl) s
        | Some method =>
            match doc_lines method with
            | _ :: d1 :: ds =>
                (write ("." +:+ cmd +:+ " " +:+ join nl (d1 :: ds)) ;;;
                 help_topics rest) s
            | _ => raise "AssertionError" s
            end
        end
  end.

(** [Shell.dot_help] *)
Definition dot_help (line : string) : M bool :=
  let tokens := split line in
  match tokens with
  | [] =>
      fun s =>
        match py_max ((fun cmd => 1 + String.length cmd) <$> elements (cmds s)) with
        | None => raise "ValueError: max() arg is an empty sequence" s
        | Some pad =>
            (help_list pad (sorted (elements (cmds s))) ;;;
             write help_footer ;;;
             ret false) s
        end
  | _ => help_topics tokens ;;; ret false
  end.

(** [Shell.dot_sql] *)
Definition dot_sql (line : string) : M bool :=
  try_except (call (SqlExecute line) ;;; ret tt) (fun tb => write tb) ;;;
  ret false.

(** [eval(line, globals, locals)]: a call like the others, and the
    assignments the evaluated text makes to the shell object, which stay
    however the evaluation ends. *)
Definition py_eval (line : string) : M Value :=
  fun s =>
    let '(s', r) := call (PyEval line) s in
    (assigned (eval_assigns W (calls_of (journal s)) line) s', r).

(** [Shell.dot_python] *)
Definition dot_python (line : string) : M bool :=
  try_except (value <- py_eval line ;; write (repr W value +:+ nl))
             (fun tb => write tb) ;;;
  ret false.

(** [Shell.dot_trace] *)
Definition dot_trace (line : string) : M bool :=
  if decide (line = "bql") then
    fun s =>
      (if traced s then ret false
       else call Trace ;;; upd (set_traced true) ;;; ret false) s
  else if decide (line = "sql") then
    fun s =>
      (if sql_traced s then ret false
       else call SqlTrace ;;; upd (set_sql_traced true) ;;; ret false) s
  else
    write ("Trace what?" +:+ nl) ;;; ret false.

(** [Shell.dot_untrace] *)
Definition dot_untrace (line : string) : M bool :=
  if decide (line = "bql") then
    fun s =>
      (if traced s
       then call Untrace ;;; upd (set_traced false) ;;; ret false
       else ret false) s
  else if decide (line = "sql") then
    fun s =>
      (if sql_traced s
       then call SqlUntrace ;;; upd (set_sql_traced false) ;;; ret false
       else ret false) s
  else
    write ("Untrace what?" +:+ nl) ;;; ret false.

(** [Shell.dot_csv] *)
Definition dot_csv (line : string) : M bool :=
  match split line with
  | [table; pathname] =>
      try_except (call (ReadCsv table pathname) ;;; ret tt)
                 (fun tb => write tb) ;;;
      ret false
  | _ => write ("Usage: .csv <table> </path/to/data.csv>" +:+ nl) ;;; ret false
  end.

(** [Shell.dot_codebook] *)
Definition dot_codebook (line : string) : M bool :=
  match split line with
  | [table; pathname] =>
      try_except (call (LoadCodebook table pathname) ;;; ret tt)
                 (fun tb => write tb) ;;;
      ret false
  | _ =>
      write ("Usage: .codebook <table> </path/to/codebook.csv>" +:+ nl) ;;;
      ret false
  end.

(** [Shell.dot_loadmodels] *)
Definition dot_loadmodels (line : string) : M bool :=
  match split line with
  | [generator; table; pathname] =>
      try_except (call (LoadLegacyModels generator table pathname) ;;; ret tt)
                 (fun tb => write tb) ;;;
      ret false
  | _ =>
      write ("Usage: .loadmodels <generator> <table> </path/to/models.pkl.gz>"
             +:+ nl) ;;;
      ret false
  end.

(** The first loop of [dot_describe] over [params]: every missing name
    is reported, and [ok] is cleared. *)
Fixpoint check_names (has : string -> Call) (what : string)
    (params : list string) (ok : bool) : M bool :=
  match params with
  | [] => ret ok
  | name :: rest =>
      found <- call (has name) ;;
      if truthy found then check_names has what rest ok
      else
        write (what +:+ repr W (VStr name) +:+ nl) ;;;
        check_names has what rest false
  end.

(** [for table in params: core.bayesdb_table_guarantee_columns(...)] *)
Fixpoint guarantee_all (params : list string) : M unit :=
  match params with
  | [] => ret tt
  | table :: rest => call (GuaranteeColumns table) ;;; guarantee_all rest
  end.

(** ['(' + ' OR '.join([clause for _p in params]) + ')'] *)
Definition any_of (clause : string) (params : list string) : string :=
  "(" +:+ join " OR " ((fun _ => clause) <$> params) +:+ ")".

Definition describe_tables_sql (qualifier : string) : string :=
  join nl
    [ "";
      "                SELECT tabname, colno, name, shortname";
      "                    FROM bayesdb_column";
      "                    WHERE " +:+ qualifier;
      "                    ORDER BY tabname ASC, colno ASC";
      "            " ].

Definition describe_generators_sql (qualifier : string) : string :=
  join nl
    [ "";
      "                SELECT id, name, tabname, metamodel";
      "                    FROM bayesdb_generator";
      "                    WHERE " +:+ qualifier;
      "            " ].

Definition describe_columns_sql : string :=
  join nl
    [ "";
      "                    SELECT c.colno AS colno, c.name AS name,";
      "                            gc.stattype AS stattype, c.shortname AS shortname";
      "                        FROM bayesdb_generator AS g,";
      "                            (bayesdb_column AS c LEFT OUTER JOIN";
      "                                bayesdb_generator_column AS gc";
      "                                USING (colno))";
      "                        WHERE g.id = ? AND g.id = gc.generator_id";
      "                " ].

Definition describe_models_sql (qualifier : string) : string :=
  join nl
    [ "";
      "                    SELECT modelno, iterations FROM bayesdb_generator_model";
      "                        WHERE generator_id = ? AND " +:+ qualifier;
      "                " ].

(** The loop of [dot_describe] over [tokens[2:]]; [None] is its early
    [return], after the message. *)
Fixpoint collect_modelnos (generator_id : Value) (tokens : list string)
    (modelnos : list Z) : M (option (list Z)) :=
  match tokens with
  | [] => ret (Some modelnos)
  | token :: rest =>
      match py_int W token with
      | None =>
          write ("Invalid model number: " +:+ token +:+ nl) ;;; ret None
      | Some modelno =>
          found <- call (GeneratorHasModel generator_id modelno) ;;
          if truthy found
          then collect_modelnos generator_id rest (modelnos ++ [modelno])
          else write ("No such model: " +:+ py_str W modelno +:+ nl) ;;;
               ret None
      end
  end.

(** [Shell.dot_describe] *)
Definition dot_describe (line : string) : M bool :=
  match split line with
  | [] => write ("Describe what, pray tell?" +:+ nl) ;;; ret false
  | tok0 :: params =>
      if decide (casefold W tok0 = "table" ∨ casefold W tok0 = "tables") then
        match params with
        | [] =>
            call (ExecuteParams (describe_tables_sql "1") []) ;;; ret false
        | _ =>
            ok <- check_names HasTable "No such table: " params true ;;
            if ok then
              guarantee_all params ;;;
              call (ExecuteParams
                      (describe_tables_sql (any_of "tabname = ?" params))
                      (VStr <$> params)) ;;;
              ret false
            else ret false
        end
      else if decide (casefold W tok0 = "generator"
                      ∨ casefold W tok0 = "generators") then
        match params with
        | [] =>
            call (ExecuteParams (describe_generators_sql "1") []) ;;; ret false
        | _ =>
            ok <- check_names HasGenerator "No such generator: " params true ;;
            if ok then
              call (ExecuteParams
                      (describe_generators_sql (any_of "name = ?" params))
                      (VStr <$> params)) ;;;
              ret false
            else ret false
        end
      else if decide (casefold W tok0 = "columns") then
        match params with
        | [generator] =>
            found <- call (HasGenerator generator) ;;
            if truthy found then
              generator_id <- call (GetGenerator generator) ;;
              call (SqlExecuteParams describe_columns_sql [generator_id]) ;;;
              ret false
            else
              write ("No such generator: " +:+ generator +:+ nl) ;;; ret false
        | _ =>
            write ("Describe columns of what generator?" +:+ nl) ;;; ret false
        end
      else if decide (casefold W tok0 = "models") then
        match params with
        | [] =>
            write ("Describe models of what generator?" +:+ nl) ;;; ret false
        | generator :: numbers =>
            found <- call (HasGenerator generator) ;;
            if truthy found then
              generator_id <- call (GetGenerator generator) ;;
              qualifier <-
                match numbers with
                | [] => ret (Some "1")
                | _ =>
                    modelnos <- collect_modelnos generator_id numbers [] ;;
                    ret ((fun l => "modelno IN (" +:+ join "," (py_str W <$> l)
                                   +:+ ")") <$> modelnos)
                end ;;
              match qualifier with
              | None => ret false
              | Some q =>
                  call (SqlExecuteParams (describe_models_sql q)
                                         [generator_id]) ;;;
                  ret false
              end
            else
              write ("No such generator: " +:+ generator +:+ nl) ;;; ret false
        end
      else
        write ("I don't know what a " +:+ repr W (VStr tok0) +:+ " is." +:+ nl) ;;;
        ret false
  end.

(** Calling a bound method. *)
Definition invoke (m : Method) (arg : string) : M bool :=
  match m with
  | MCodebook => dot_codebook arg
  | MCsv => dot_csv arg
  | MDescribe => dot_describe arg
  | MHelp => dot_help arg
  | MLoadmodels => dot_loadmodels arg
  | MPython => dot_python arg
  | MSql => dot_sql arg
  | MTrace => dot_trace arg
  | MUntrace => dot_untrace arg
  end.

(** ** Dispatch, as inherited from [cmd.Cmd] *)

(** [self.identchars]: letters, digits and [_] from [cmd.Cmd], and the
    [.] that [Shell.__init__] adds. *)
Definition identchar (c : ascii) : bool :=
  let n := N_of_ascii c in
  ((97 <=? n)%N && (n <=? 122)%N) || ((65 <=? n)%N && (n <=? 90)%N)
  || ((48 <=? n)%N && (n <=? 57)%N) || (n =? 95)%N || (n =? 46)%N.

(** [line[:i], line[i:]] for the first [i] with [line[i]] no identchar. *)
Fixpoint span_ident (line : string) : string * string :=
  match line with
  | String c rest =>
      if identchar c
      then let '(cmd, tail) := span_ident rest in (String c cmd, tail)
      else ("", line)
  | EmptyString => ("", "")
  end.

(** [cmd.Cmd.parseline]; the class has no [do_shell]. *)
Definition parseline (line : string) : option string * option string * string :=
  let line := strip line in
  match line with
  | EmptyString => (None, None, line)
  | String c rest =>
      if decide (c = "!"%char) then (None, None, line)
      else
        let line := if decide (c = "?"%char) then "help " +:+ rest else line in
        let '(cmd, tail) := span_ident line in
        (Some cmd, Some (strip tail), line)
  end.

(** What [getattr(self, 'do_' + cmd)] finds: [do_help] of [cmd.Cmd], or
    an attribute set by [_installcmd]; [None] is [AttributeError]. *)
Inductive Func :=
  | Builtin_help
  | Bound (m : Method).

Definition getattr_do (cmd : string) (s : Session) : option Func :=
  if decide (cmd = "help") then Some Builtin_help
  else
    match cmd with
    | String c name => if decide (c = "."%char) then Bound <$> attrs s !! name
                       else None
    | EmptyString => None
    end.

(** [cmd.Cmd.do_help], which only writes. *)
Definition do_help (arg : string) : M bool :=
  fun s => (put_all (Cmd_do_help W (attrs s) arg) s, Ret false).

(** [cmd.Cmd.onecmd] after [parseline] has found a non-empty line. *)
Definition dispatch (cmd : option string) (arg line : string) : M bool :=
  match cmd with
  | None => default line
  | Some cmd =>
      upd (set_lastcmd line) ;;;
      (if decide (line = "EOF") then upd (set_lastcmd "") else ret tt) ;;;
      if decide (cmd = "") then default line
      else
        fun s =>
          match getattr_do cmd s with
          | None => default line s
          | Some Builtin_help => do_help arg s
          | Some (Bound m) => invoke m arg s
          end
  end.

(** [cmd.Cmd.onecmd], to the depth [emptyline] calls it at.  With
    nothing left of [depth] the recursion is the one Python gives up
    with a [RuntimeError]: a [lastcmd] that strips to nothing. *)
Fixpoint onecmd_at (depth : nat) (line : string) : M bool :=
  let '(cmd, arg, line) := parseline line in
  if decide (line = "") then
    (* emptyline *)
    fun s =>
      if decide (lastcmd s = "") then ret false s
      else
        match depth with
        | O => raise "RuntimeError: maximum recursion depth exceeded" s
        | S depth' => onecmd_at depth' (lastcmd s) s
        end
  else dispatch cmd (from_option id "" arg) line.

Definition onecmd (line : string) : M bool := onecmd_at 1 line.

(** ** The read loop *)

(** What the terminal delivers to one [raw_input]: a line, the end of
    the input ([EOFError]) or a [KeyboardInterrupt]. *)
Inductive ReadEvent :=
  | Line (text : string)
  | EndOfInput
  | CtrlC.

(** [raw_input(self.prompt)] with the [except EOFError: line = 'EOF'] of
    [cmd.Cmd.cmdloop]. *)
Definition raw_input (ev : ReadEvent) : M string :=
  fun s =>
    let s' := record (EvRead (prompt s)) s in
    match ev with
    | Line text => (s', Ret text)
    | EndOfInput => (s', Ret "EOF")
    | CtrlC => (s', Interrupt)
    end.

(** One turn of the [while not stop] of [cmd.Cmd.cmdloop]; [precmd] and
    [postcmd] are the identities of [cmd.Cmd], the queue is empty. *)
Definition turn (ev : ReadEvent) : M bool :=
  line <- raw_input ev ;; onecmd line.

(** How a run over a finite script of reads ends: the loop has returned,
    an exception has left [Shell.cmdloop], a [SystemExit] has, or the
    script is used up and the loop is blocked in the next read. *)
Inductive Exit :=
  | Exited
  | Crashed (tb : string)
  | Terminated
  | Waiting.

(** The [while True] of [Shell.cmdloop] around the [while not stop] of
    [cmd.Cmd.cmdloop], as one recursion on the script: when a
    [KeyboardInterrupt] leaves the inner loop the handler writes [^C]
    and the [continue] enters [cmd.Cmd.cmdloop] again, whose [preloop],
    [intro] (None) and [postloop] do nothing and whose [stop] starts
    anew, so that the next thing to happen is the next read. *)
Fixpoint cmdloop_from (input : list ReadEvent) (s : Session) : Session * Exit :=
  match input with
  | [] => (s, Waiting)
  | ev :: rest =>
      match turn ev s with
      | (s', Ret stop) => if stop then (s', Exited) else cmdloop_from rest s'
      | (s', Interrupt) => cmdloop_from rest (put ("^C" +:+ nl) s')
      | (s', Throw tb) => (s', Crashed tb)
      | (s', SysExit) => (s', Terminated)
      end
  end.

(** [Shell.cmdloop] *)
Definition cmdloop (input : list ReadEvent) (s : Session) : Session * Exit :=
  cmdloop_from input
    (put ("Type `.help' for help." +:+ nl)
       (put ("Welcome to the Bayeslite shell." +:+ nl) s)).

End Shell.

(** ** Sample collaborators *)

(** A stand-in for the completeness predicate's answer: the text,
    trailing blanks apart, ends in a semicolon. *)
Definition ends_in_semicolon (text : string) : bool :=
  match String.rev (rstrip text) with
  | String c _ => bool_decide (c = ";"%char)
  | EmptyString => false
  end.

(** Collaborators whose every call prints nothing and ends as [e]; the
    completeness predicate always answers, and evaluated text assigns
    nothing. *)
Definition sample_world (e : Ending) : World :=
  mkWorld (fun _ text => Ret (ends_in_semicolon text))
          (fun _ _ => mkOutcome [] e) (fun _ _ s => s)
          (fun _ => "<repr>") (fun _ => None) (fun _ => "<int>") id
          (fun _ _ => []).

Definition quiet_world : World := sample_world (Returned VNone).

(** The shell as constructed, for the concrete runs below. *)
Definition shell0 : Session := from_option id blank Shell_init.

(** A session in the middle of a statement. *)
Definition mid_statement : Session :=
  (default quiet_world "select x" shell0).1.

(** A session that has shown both prompts. *)
Definition some_session : Session :=
  (cmdloop quiet_world
     [Line "select x"; CtrlC; Line ".trace"; Line "from t;"; Line ".python 1"]
     shell0).1.

(** ** Vocabulary of the properties *)

(** The calls made so far. *)
Definition history (s : Session) : list Call := calls_of (journal s).

(** [a] is journalled strictly before [b]. *)
Definition happens_before (a b : Event) (j : list Event) : Prop :=
  ∃ j1 j2 j3, j = j1 ++ a :: j2 ++ b :: j3.

(** The state in which the executor is called on a completed buffer:
    the buffer object is already replaced and the prompt reset. *)
Definition cleared (s : Session) : Session :=
  set_prompt def_prompt (record EvClear (set_bql "" s)).

(** The state a call leaves, whatever its end. *)
Definition after_call (W : World) (c : Call) (s : Session) : Session :=
  put_all (written (respond W (calls_of (journal s)) c)) (record (EvCall c) s).

(** The command name of a line that begins with the sentinel [.]: the
    identchars after it, as [parseline] cuts them. *)
Definition command_name (raw : string) : option string :=
  match strip raw with
  | String c rest =>
      if decide (c = "."%char) then Some (span_ident rest).1 else None
  | EmptyString => None
  end.

(** [onecmd] hands [raw] over to [default] as [line]: it is not blank,
    not the end of input, and names no [do_] attribute. *)
Definition falls_to_default (s : Session) (raw line : string) : Prop :=
  ∃ cmd arg,
    parseline raw = (Some cmd, arg, line) ∧ line ≠ "" ∧ line ≠ "EOF"
    ∧ (cmd = "" ∨ getattr_do cmd s = None).

(** The two states of the accumulator. *)
Definition idle (s : Session) : Prop := bql s = "" ∧ prompt s = def_prompt.
Definition accumulating (s : Session) : Prop :=
  bql s ≠ "" ∧ prompt s = bql_prompt.

(** The buffer after [lines] were appended to [b], each with its line
    feed. *)
Definition buffered_from (b : string) (lines : list string) : string :=
  foldl (fun acc line => (acc +:+ line) +:+ nl) b lines.

Definition buffered (lines : list string) : string := buffered_from "" lines.

(** The lines handed to [Shell.default] one after the other, the way the
    loop goes on while a command returns false. *)
Fixpoint feed (W : World) (lines : list string) : M bool :=
  match lines with
  | [] => ret false
  | line :: rest =>
      stop <- default W line ;;
      if stop then ret true else feed W rest
  end.

(** The two tracers, with the argument that names each, its calls and
    its flag. *)
Inductive Tracer := Bql | Sql.

Definition tracer_arg (t : Tracer) : string :=
  match t with Bql => "bql" | Sql => "sql" end.

Definition subscribe (t : Tracer) : Call :=
  match t with Bql => Trace | Sql => SqlTrace end.

Definition unsubscribe (t : Tracer) : Call :=
  match t with Bql => Untrace | Sql => SqlUntrace end.

Definition tracing (t : Tracer) (s : Session) : bool :=
  match t with Bql => traced s | Sql => sql_traced s end.

Definition set_tracing (t : Tracer) (b : bool) (s : Session) : Session :=
  match t with Bql => set_traced b s | Sql => set_sql_traced b s end.

(** The collaborator returns from [c] whenever it is called. *)
Definition returns (W : World) (c : Call) : Prop :=
  ∀ h, ∃ v, ending (respond W h c) = Returned v.

(** The line [dot_help] writes for [cmd], given the installed methods. *)
Definition summary_line (methods : gmap string Method) (pad : nat)
    (cmd : string) : string :=
  match methods !! cmd with
  | Some method => help_line pad cmd (hd "" (doc_lines method))
  | None => ""
  end.

(** The object after the installations [l], when none of them fails. *)
Definition installed (l : list (string * Method)) : Session :=
  mkSession def_prompt "" (list_to_set l.*1) (list_to_map l)
            false false "" [] [].

(** Whatever text [eval] is handed, and whenever, the assignments it
    makes to the shell object leave [R] between the object it finds and
    the object it leaves. *)
Definition eval_keeps (W : World) (R : relation Session) : Prop :=
  ∀ h text s, R s (assigned (eval_assigns W h text) s).

(** A text that, evaluated by [dot_python], finds the shell object in
    the frame that called [eval] and assigns its prompt; [setattr]
    returns [None]. *)
Definition prompt_assignment : string :=
  "setattr(__import__('sys')._getframe(1).f_locals['self'], 'prompt', 'python...> ')".

(** Collaborators like those of [quiet_world], with an interpreter that
    does what [prompt_assignment] says when it is handed that text, and
    assigns nothing on any other. *)
Definition meddling_world : World :=
  mkWorld (fun _ text => Ret (ends_in_semicolon text))
          (fun _ _ => mkOutcome [] (Returned VNone))
          (fun _ text s =>
             if decide (text = prompt_assignment)
             then set_prompt python_prompt s else s)
          (fun v => match v with VNone => "None" | _ => "<repr>" end)
          (fun _ => None) (fun _ => "<int>") id
          (fun _ _ => []).

(** A prompt is one of the two that [Shell.default] assigns. *)
Definition prompt_ok (p : string) : Prop := p = def_prompt ∨ p = bql_prompt.

(** The states a session passes through: the constructed object, and
    from there any write of [Shell.cmdloop], any turn of the loop, and
    any method called on its own. *)
Inductive reachable (W : World) : Session → Prop :=
  | reach_init s : Shell_init = Some s → reachable W s
  | reach_put s chunk : reachable W s → reachable W (put chunk s)
  | reach_turn s ev : reachable W s → reachable W (turn W ev s).1
  | reach_onecmd s line : reachable W s → reachable W (onecmd W line s).1
  | reach_default s line : reachable W s → reachable W (default W line s).1
  | reach_invoke s m arg : reachable W s → reachable W (invoke W m arg s).1
  | reach_do_help s arg : reachable W s → reachable W (do_help W arg s).1.

(** [s'] comes from [s] with no prompt shown, and with the prompt either
    left alone or assigned one of the two. *)
Definition tame (s s' : Session) : Prop :=
  prompts_shown (journal s') = prompts_shown (journal s)
  ∧ (prompt s' = prompt s ∨ prompt_ok (prompt s')).

Definition tamed {A} (m : M A) : Prop := ∀ s, tame s (m s).1.

(** The prompt is one of the two, and so was every prompt shown. *)
Definition prompts_fine (s : Session) : Prop :=
  prompt_ok (prompt s) ∧ Forall prompt_ok (prompts_shown (journal s)).


(** ** Frames: what a method leaves alone *)

(** A relation between the state before and the state after that holds
    across writes and across the calls it allows, and composes. *)
Class Frame (R : relation Session) := {
  frame_ok : Call → Prop;
  frame_refl s : R s s;
  frame_trans s1 s2 s3 : R s1 s2 → R s2 s3 → R s1 s3;
  frame_put_all chunks s : R s (put_all chunks s);
  frame_record c s : frame_ok c → R s (record (EvCall c) s)
}.

(** The method [m] keeps [R] between the state it starts in and the
    state it leaves, however it ends. *)
Definition keeps (R : relation Session) {A} (m : M A) : Prop :=
  ∀ s, R s (m s).1.

(** Nothing of the statement in progress, of the dispatch or of the
    registry has changed; output and journal have only grown. *)
Definition untouched (s s' : Session) : Prop :=
  bql s' = bql s ∧ prompt s' = prompt s ∧ lastcmd s' = lastcmd s
  ∧ cmds s' = cmds s ∧ attrs s' = attrs s
  ∧ stdout s `prefix_of` stdout s' ∧ journal s `prefix_of` journal s'.

(** The registry is as it was; output and journal have only grown. *)
Definition registry_kept (s s' : Session) : Prop :=
  cmds s' = cmds s ∧ attrs s' = attrs s
  ∧ stdout s `prefix_of` stdout s' ∧ journal s `prefix_of` journal s'.

(** Both trace flags are as they were. *)
Definition flags_kept (s s' : Session) : Prop :=
  traced s' = traced s ∧ sql_traced s' = sql_traced s.

(** A property of the state that survives. *)
Definition carries (P : Session → Prop) : relation Session :=
  λ s s', P s → P s'.

(** The method does not return true: it does not stop the loop. *)
Definition never_stops {A} (m : M A) (stop : A) : Prop :=
  ∀ s, (m s).2 ≠ Ret stop.

(** What [dot_help] writes for a command that is asked about: its name
    and the lines of its docstring after the summary. *)
Definition topic_text (methods : gmap string Method) (cmd : string) : string :=
  match methods !! cmd with
  | Some method => "." +:+ cmd +:+ " " +:+ join nl (tail (doc_lines method))
  | None => ""
  end.

(** Collaborators that know the tables [tables] and say so whenever they
    are asked, silently; every other call prints nothing and returns. *)
Definition catalog_world (tables : list string) : World :=
  mkWorld (fun _ text => Ret (ends_in_semicolon text))
          (fun _ c =>
             match c with
             | HasTable t => mkOutcome [] (Returned (VBool (bool_decide (t ∈ tables))))
             | _ => mkOutcome [] (Returned VNone)
             end)
          (fun _ _ s => s)
          (fun _ => "<repr>") (fun _ => None) (fun _ => "<int>") id
          (fun _ _ => []).

(** The effect of a call of [t]'s on the subscription of [t]: its
    subscription sets it, its unsubscription clears it, any other call
    leaves it. *)
Definition toggles (t : Tracer) (c : Call) (b : bool) : bool :=
  match t, c with
  | Bql, Trace => true
  | Bql, Untrace => false
  | Sql, SqlTrace => true
  | Sql, SqlUntrace => false
  | _, _ => b
  end.

(** Whether [t] is subscribed after the calls [h], none being
    subscribed before. *)
Definition subscribed (t : Tracer) (h : list Call) : bool :=
  foldl (λ b c, toggles t c b) false h.

(** The flag of [t] says what the calls made so far amount to. *)
Definition in_sync (t : Tracer) (s : Session) : Prop :=
  tracing t s = subscribed t (history s).

(** The text ends in a line feed. *)
Definition ends_in_nl (text : string) : Prop := ∃ t, text = t +:+ nl.

(** Every text that [Shell.default] has handed to [bdb.execute] ends in
    a line feed. *)
Definition whole_lines (s : Session) : Prop :=
  Forall (λ c, ∀ text, c = Execute text → ends_in_nl text) (history s).

(** The continuation prompt is up only while a statement is pending. *)
Definition settled (s : Session) : Prop :=
  prompt s = def_prompt ∨ accumulating s.

(** Collaborators like those of [quiet_world], but for the completeness
    predicate: every call of it ends as [r]. *)
Definition cut_world (r : Result bool) : World :=
  mkWorld (fun _ _ => r)
          (fun _ _ => mkOutcome [] (Returned VNone)) (fun _ _ s => s)
          (fun _ => "<repr>") (fun _ => None) (fun _ => "<int>") id
          (fun _ _ => []).

(** A session that has toggled its tracers. *)
Definition toggled_session : Session :=
  (cmdloop quiet_world
     [Line ".trace sql"; Line ".trace sql"; Line ".untrace sql";
      Line ".trace bql"; Line ".trace sql"; Line "select 1;"]
     shell0).1.

(** Collaborators that know the generators [generators], each with the
    models [models], and answer silently; decimal [1], [2] and [3] are
    the numbers [int] reads. *)
Definition generators_world (generators : list string) (models : list Z)
    : World :=
  mkWorld (fun _ text => Ret (ends_in_semicolon text))
          (fun _ c =>
             match c with
             | HasGenerator g =>
                 mkOutcome [] (Returned (VBool (bool_decide (g ∈ generators))))
             | GetGenerator _ => mkOutcome [] (Returned (VInt 7))
             | GeneratorHasModel _ n =>
                 mkOutcome [] (Returned (VBool (bool_decide (n ∈ models))))
             | _ => mkOutcome [] (Returned VNone)
             end)
          (fun _ _ s => s)
          (fun _ => "<repr>")
          (fun t => if decide (t = "1") then Some 1%Z
                    else if decide (t = "2") then Some 2%Z
                    else if decide (t = "3") then Some 3%Z
                    else None)
          (fun _ => "<int>") id
          (fun _ _ => []).

(** * Properties *)

(** ** Journals *)

Lemma calls_of_app (j1 j2 : list Event) :
  calls_of (j1 ++ j2) = calls_of j1 ++ calls_of j2.
Proof.
  induction j1 as [|[p| |c] j1 IH]; simpl; [done|done|done|by f_equal].
Qed.

Lemma prompts_shown_app (j1 j2 : list Event) :
  prompts_shown (j1 ++ j2) = prompts_shown j1 ++ prompts_shown j2.
Proof.
  induction j1 as [|[p| |c] j1 IH]; simpl; [done|by f_equal|done|done].
Qed.

(** ** The accumulator: [Shell.default] *)

Section Accumulator.

Context (W : World).

Lemma call_eq (c : Call) (s : Session) :
  call W c s =
    (after_call W c s,
     match ending (respond W (calls_of (journal s)) c) with
     | Returned v => Ret v
     | Raised tb => Throw tb
     | Interrupted => Interrupt
     | Exiting => SysExit
     end).
Proof. unfold call, after_call. by destruct (ending _). Qed.

Lemma stdout_put (chunk : string) (s : Session) :
  stdout (put chunk s) = stdout s ++ [chunk].
Proof. done. Qed.

Lemma stdout_after_call (c : Call) (s : Session) :
  stdout (after_call W c s) = stdout s ++ written (respond W (history s) c).
Proof. done. Qed.

Lemma history_cleared (s : Session) : history (cleared s) = history s.
Proof.
  unfold history. simpl. rewrite calls_of_app. simpl. apply app_nil_r.
Qed.

Lemma default_EOF (s : Session) :
  default W "EOF" s = (put (farewell) s, Ret true).
Proof. done. Qed.

Lemma default_incomplete (line : string) (s : Session) :
  line ≠ "EOF" →
  bql_string_complete_p W (history s) ((bql s +:+ line) +:+ nl) = Ret false →
  default W line s =
    (set_prompt bql_prompt (set_bql ((bql s +:+ line) +:+ nl) s), Ret false).
Proof.
  intros Hne Hinc. unfold history in Hinc. unfold default.
  case_decide; [done|].
  unfold bind, upd, ended; simpl. by rewrite Hinc.
Qed.

Lemma default_complete (line : string) (s : Session) :
  line ≠ "EOF" →
  bql_string_complete_p W (history s) ((bql s +:+ line) +:+ nl) = Ret true →
  default W line s =
    let text := (bql s +:+ line) +:+ nl in
    let s' := after_call W (Execute text) (cleared s) in
    match ending (respond W (calls_of (journal s)) (Execute text)) with
    | Returned _ => (s', Ret false)
    | Raised tb => (put tb s', Ret false)
    | Interrupted => (s', Interrupt)
    | Exiting => (s', SysExit)
    end.
Proof.
  intros Hne Hc. unfold history in Hc. unfold default. case_decide; [done|].
  unfold bind at 1 2. unfold upd at 1 2. simpl.
  unfold bind at 1. unfold ended. rewrite Hc.
  unfold bind at 1 2. unfold upd at 1 2. unfold bind at 1.
  unfold try_except, bind at 1. rewrite call_eq.
  change (set_prompt def_prompt (record EvClear (set_bql "" _))) with (cleared s).
  assert (Hj : calls_of (journal (cleared s)) = calls_of (journal s)).
  { simpl. rewrite calls_of_app. simpl. by rewrite app_nil_r. }
  rewrite Hj. by destruct (ending _).
Qed.

(** When the call of the completeness predicate does not return, the
    line is in the buffer already and nothing else is done. *)
Lemma default_cut (line : string) (s : Session) :
  line ≠ "EOF" →
  let s1 := set_bql ((bql s +:+ line) +:+ nl) s in
  match bql_string_complete_p W (history s) ((bql s +:+ line) +:+ nl) with
  | Ret _ => True
  | Throw tb => default W line s = (s1, Throw tb)
  | Interrupt => default W line s = (s1, Interrupt)
  | SysExit => default W line s = (s1, SysExit)
  end.
Proof.
  intros Hne. unfold default, history. case_decide; [done|].
  unfold bind, upd, ended; simpl.
  by destruct (bql_string_complete_p W _ _).
Qed.

End Accumulator.

(** ** Dispatch: which lines reach the accumulator *)

Section Dispatch.

Context (W : World).

Lemma onecmd_falls (s : Session) (raw line : string) :
  falls_to_default s raw line →
  onecmd W raw s = default W line (set_lastcmd line s).
Proof.
  intros (cmd & arg & Hp & Hne & Heof & Hcmd).
  unfold onecmd, onecmd_at. rewrite Hp. case_decide; [done|].
  unfold dispatch. unfold bind at 1, upd at 1. unfold bind at 1.
  case_decide; [done|]. unfold ret at 1.
  case_decide as Hc.
  - done.
  - destruct Hcmd as [?|Hg]; [done|].
    assert (Hg' : getattr_do cmd (set_lastcmd line s) = None) by exact Hg.
    by rewrite Hg'.
Qed.

Lemma unregistered_falls (s : Session) (raw name : string) :
  registry_consistent s →
  command_name raw = Some name →
  name ∉ cmds s →
  falls_to_default s raw (strip raw).
Proof.
  intros Hreg Hname Hnot. unfold command_name in Hname.
  destruct (strip raw) as [|c rest] eqn:Hs; [done|].
  case_decide as Hc; [|done]. subst c. injection Hname as Hname.
  destruct (span_ident rest) as [cmd tail] eqn:Hspan. simpl in Hname. subst cmd.
  exists (String "."%char name), (Some (strip tail)). split; [|split; [|split]].
  - unfold parseline. rewrite Hs.
    case_decide; [done|]. case_decide; [done|].
    change (span_ident (String "." rest))
      with (let '(cmd, tail) := span_ident rest in (String "."%char cmd, tail)).
    by rewrite Hspan.
  - done.
  - done.
  - right. unfold getattr_do. case_decide; [done|]. case_decide; [|done].
    destruct (attrs s !! name) as [m|] eqn:Hm; [|done].
    exfalso. apply Hnot, Hreg. by rewrite Hm.
Qed.

End Dispatch.

(** C1, as the code has it: a line that begins with [.] and names no
    registered command is not reported at all.  [onecmd] finds no
    attribute for it and hands it, stripped, to [Shell.default], which
    appends it and a line feed to the pending buffer and asks the
    completeness predicate: an incomplete buffer keeps the line and
    shows the continuation prompt with nothing written, a complete one
    goes to the statement executor. *)
Theorem C1_unregistered_dot_line_is_accumulated
    (W : World) (s : Session) (raw name : string) :
  registry_consistent s →
  command_name raw = Some name →
  name ∉ cmds s →
  let text := (bql s +:+ strip raw) +:+ nl in
  onecmd W raw s = default W (strip raw) (set_lastcmd (strip raw) s)
  ∧ (bql_string_complete_p W (history s) text = Ret false →
     onecmd W raw s =
       (set_prompt bql_prompt (set_bql text (set_lastcmd (strip raw) s)),
        Ret false))
  ∧ (bql_string_complete_p W (history s) text = Ret true →
     journal (onecmd W raw s).1
       = journal s ++ [EvClear; EvCall (Execute text)]).
Proof.
  intros Hreg Hname Hnot text.
  pose proof (unregistered_falls s raw name Hreg Hname Hnot) as Hfall.
  pose proof (onecmd_falls W s raw _ Hfall) as Heq.
  destruct Hfall as (cmd & arg & _ & _ & Heof & _).
  split; [done|split].
  - intros Hinc. rewrite Heq. by apply default_incomplete.
  - intros Hc. rewrite Heq.
    rewrite (default_complete W (strip raw) (set_lastcmd (strip raw) s) Heof Hc).
    simpl. destruct (ending _); simpl; by rewrite <- app_assoc.
Qed.

Lemma installed_registry_consistent (l : list (string * Method)) :
  registry_consistent (installed l).
Proof.
  intros name. simpl. rewrite elem_of_list_to_set. split.
  - intros Hin. destruct (list_to_map l !! name) as [m|] eqn:Hm; [done|].
    by apply not_elem_of_list_to_map in Hm.
  - intros [m Hm]. apply elem_of_list_to_map_2 in Hm.
    apply list_elem_of_fmap. by exists (name, m).
Qed.

Lemma shell0_is_installed : shell0 = installed declared.
Proof. vm_compute. reflexivity. Qed.

Lemma shell0_registry_consistent : registry_consistent shell0.
Proof. rewrite shell0_is_installed. apply installed_registry_consistent. Qed.

Lemma C1_witness :
  onecmd quiet_world ".quit" shell0
    = default quiet_world ".quit" (set_lastcmd ".quit" shell0)
  ∧ (bql_string_complete_p quiet_world (history shell0) ((bql shell0 +:+ ".quit") +:+ nl) = Ret false →
     onecmd quiet_world ".quit" shell0 =
       (set_prompt bql_prompt
          (set_bql ((bql shell0 +:+ ".quit") +:+ nl) (set_lastcmd ".quit" shell0)),
        Ret false))
  ∧ (bql_string_complete_p quiet_world (history shell0) ((bql shell0 +:+ ".quit") +:+ nl) = Ret true →
     journal (onecmd quiet_world ".quit" shell0).1
       = journal shell0
         ++ [EvClear; EvCall (Execute ((bql shell0 +:+ ".quit") +:+ nl))]).
Proof.
  apply (C1_unregistered_dot_line_is_accumulated
           quiet_world shell0 ".quit" "quit").
  - exact shell0_registry_consistent.
  - reflexivity.
  - vm_compute. intros H. inversion H.
Defined.

(** C1 fails as stated: [.foo] names no command, yet nothing is written
    and the line is in the pending buffer afterwards. *)
Lemma C1_counterexample :
  command_name ".foo" = Some "foo"
  ∧ ("foo" ∉ cmds shell0)
  ∧ (onecmd quiet_world ".foo" shell0).2 = Ret false
  ∧ stdout (onecmd quiet_world ".foo" shell0).1 = stdout shell0
  ∧ bql shell0 = ""
  ∧ bql (onecmd quiet_world ".foo" shell0).1 = (".foo" +:+ nl).
Proof.
  split; [done|]. split; [|by vm_compute].
  vm_compute. intros H. inversion H.
Qed.

(** ** Turns of the loop *)

Section Turns.

Context (W : World).

Lemma history_read (s : Session) (p : string) :
  history (record (EvRead p) s) = history s.
Proof. unfold history. simpl. rewrite calls_of_app. simpl. apply app_nil_r. Qed.

Lemma turn_falls (s : Session) (raw line : string) :
  falls_to_default s raw line →
  turn W (Line raw) s
    = default W line (set_lastcmd line (record (EvRead (prompt s)) s)).
Proof.
  intros (cmd & arg & Hp & Hne & Heof & Hcmd).
  unfold turn, bind, raw_input. apply onecmd_falls.
  exists cmd, arg. repeat split; [done..|]. exact Hcmd.
Qed.

Lemma cmdloop_from_cons (ev : ReadEvent) (rest : list ReadEvent) (s : Session) :
  cmdloop_from W (ev :: rest) s =
    match turn W ev s with
    | (s', Ret stop) => if stop then (s', Exited) else cmdloop_from W rest s'
    | (s', Interrupt) => cmdloop_from W rest (put ("^C" +:+ nl) s')
    | (s', Throw tb) => (s', Crashed tb)
    | (s', SysExit) => (s', Terminated)
    end.
Proof. done. Qed.

Lemma turn_EOF (ev : ReadEvent) (s : Session) :
  ev = EndOfInput ∨ (∃ raw, ev = Line raw ∧ strip raw = "EOF") →
  turn W ev s
    = (put farewell (set_lastcmd "" (record (EvRead (prompt s)) s)), Ret true).
Proof.
  intros [->|(raw & -> & Hraw)].
  - reflexivity.
  - unfold turn, bind, raw_input, onecmd, onecmd_at, parseline.
    rewrite Hraw. reflexivity.
Qed.

End Turns.

(** C2, as the code has it: once the appended line makes the buffered
    text complete, the text is taken from the buffer, the buffer is
    replaced by an empty one and the prompt reset, and only then is the
    text executed.  So the call journalled after the replacement is the
    only thing between it and the end, and however the execution ends
    (it returns, fails, or is interrupted) the buffer is empty and the
    prompt is the default one. *)
Theorem C2_buffer_is_cleared_then_executed
    (W : World) (s : Session) (line : string) :
  line ≠ "EOF" →
  bql_string_complete_p W (history s) ((bql s +:+ line) +:+ nl) = Ret true →
  let text := (bql s +:+ line) +:+ nl in
  let s' := (default W line s).1 in
  journal s' = journal s ++ [EvClear; EvCall (Execute text)]
  ∧ bql s' = ""
  ∧ prompt s' = def_prompt
  ∧ (default W line s).2 ≠ Ret true.
Proof.
  intros Hne Hc text s'. subst s'.
  rewrite (default_complete W line s Hne Hc). simpl.
  destruct (ending _); simpl; rewrite <- app_assoc; done.
Qed.

Lemma C2_witness :
  let text := (bql shell0 +:+ "select 1;") +:+ nl in
  let s' := (default (sample_world (Raised "Traceback")) "select 1;" shell0).1 in
  journal s' = journal shell0 ++ [EvClear; EvCall (Execute text)]
  ∧ bql s' = ""
  ∧ prompt s' = def_prompt
  ∧ (default (sample_world (Raised "Traceback")) "select 1;" shell0).2 ≠ Ret true.
Proof.
  apply (C2_buffer_is_cleared_then_executed
           (sample_world (Raised "Traceback")) shell0 "select 1;").
  - vm_compute. intros H. inversion H.
  - vm_compute. reflexivity.
Defined.

(** C2 fails as stated: the execution of the buffered text does not come
    before the clearing of the buffer, the clearing is journalled
    first. *)
Lemma C2_counterexample :
  let text := "select 1;" +:+ nl in
  let j := journal (default quiet_world "select 1;" shell0).1 in
  bql_string_complete_p quiet_world (history shell0) text = Ret true
  ∧ j = [EvClear; EvCall (Execute text)]
  ∧ ¬ happens_before (EvCall (Execute text)) EvClear j.
Proof.
  split; [by vm_compute|]. split; [by vm_compute|].
  intros (j1 & j2 & j3 & H). vm_compute in H.
  destruct j1 as [|e1 [|e2 [|e3 j1]]]; simplify_eq/=.
  destruct j2 as [|e2 [|e3 j2]]; simplify_eq/=.
Qed.

(** C5: a read that yields [EOF] (the end of the input, or a line that
    is [EOF] once stripped) ends the loop.  All that is written is the
    farewell, the pending buffer is left as it was and no call is made:
    what was buffered is never executed, and the rest of the input is
    never read. *)
Theorem C5_EOF_ends_the_loop_and_drops_the_buffer
    (W : World) (s : Session) (ev : ReadEvent) (rest : list ReadEvent) :
  ev = EndOfInput ∨ (∃ raw, ev = Line raw ∧ strip raw = "EOF") →
  ∃ s',
    cmdloop_from W (ev :: rest) s = (s', Exited)
    ∧ stdout s' = stdout s ++ [nl +:+ "Moriturus te querio." +:+ nl]
    ∧ bql s' = bql s
    ∧ history s' = history s
    ∧ journal s' = journal s ++ [EvRead (prompt s)].
Proof.
  intros Hev. eexists. split.
  - rewrite cmdloop_from_cons, (turn_EOF W ev s Hev). reflexivity.
  - repeat split. apply (history_read s).
Qed.

Lemma C5_witness :
  accumulating mid_statement
  ∧ ∃ s',
      cmdloop_from quiet_world [EndOfInput; Line "from t;"] mid_statement
        = (s', Exited)
      ∧ stdout s' = stdout mid_statement ++ [nl +:+ "Moriturus te querio." +:+ nl]
      ∧ bql s' = bql mid_statement
      ∧ history s' = history mid_statement
      ∧ journal s' = journal mid_statement ++ [EvRead (prompt mid_statement)].
Proof.
  split.
  - split; [vm_compute; intros H; inversion H | reflexivity].
  - apply (C5_EOF_ends_the_loop_and_drops_the_buffer
             quiet_world mid_statement EndOfInput [Line "from t;"]).
    left. reflexivity.
Defined.

(** C7: when the line that completes a statement is read and the
    execution of the statement raises, the traceback is written after
    whatever the execution had printed, the turn returns false so that
    the loop goes on with the rest of the input, the buffer is empty,
    and the next read shows the default prompt. *)
Theorem C7_failed_statement_is_reported_and_the_loop_goes_on
    (W : World) (s : Session) (raw line tb : string) (rest : list ReadEvent) :
  falls_to_default s raw line →
  bql_string_complete_p W (history s) ((bql s +:+ line) +:+ nl) = Ret true →
  ending (respond W (history s) (Execute ((bql s +:+ line) +:+ nl))) = Raised tb →
  ∃ s',
    turn W (Line raw) s = (s', Ret false)
    ∧ cmdloop_from W (Line raw :: rest) s = cmdloop_from W rest s'
    ∧ stdout s'
        = stdout s
          ++ written (respond W (history s) (Execute ((bql s +:+ line) +:+ nl)))
          ++ [tb]
    ∧ bql s' = ""
    ∧ prompt s' = def_prompt
    ∧ ∀ ev, journal (raw_input ev s').1 = journal s' ++ [EvRead def_prompt].
Proof.
  intros Hfall Hc Hend.
  pose proof (turn_falls W s raw line Hfall) as Hturn.
  destruct Hfall as (cmd & arg & _ & _ & Heof & _).
  set (s1 := set_lastcmd line (record (EvRead (prompt s)) s)) in *.
  assert (Hh : history s1 = history s) by apply (history_read s).
  assert (Hc1 : bql_string_complete_p W (history s1) ((bql s1 +:+ line) +:+ nl)
                = Ret true) by (rewrite Hh; exact Hc).
  pose proof (default_complete W line s1 Heof Hc1) as Hd.
  cbv zeta in Hd. fold (history s1) in Hd. rewrite Hh in Hd.
  change (bql s1) with (bql s) in Hd.
  rewrite Hend in Hd.
  eexists. split; [by rewrite Hturn, Hd|].
  split; [by rewrite cmdloop_from_cons, Hturn, Hd|].
  split.
  { rewrite stdout_put, stdout_after_call, history_cleared, Hh.
    by rewrite <- app_assoc. }
  split; [done|]. split; [done|].
  intros ev. by destruct ev.
Qed.

Lemma select_falls (s : Session) :
  falls_to_default s "select 1;" "select 1;".
Proof.
  exists "select", (Some "1;"). split; [reflexivity|].
  split; [done|]. split; [done|]. right. reflexivity.
Qed.

Lemma C7_witness :
  ∃ s',
    turn (sample_world (Raised "Traceback")) (Line "select 1;") shell0
      = (s', Ret false)
    ∧ cmdloop_from (sample_world (Raised "Traceback"))
        (Line "select 1;" :: [EndOfInput]) shell0
      = cmdloop_from (sample_world (Raised "Traceback")) [EndOfInput] s'
    ∧ stdout s'
        = stdout shell0
          ++ written (respond (sample_world (Raised "Traceback")) (history shell0)
                        (Execute ((bql shell0 +:+ "select 1;") +:+ nl)))
          ++ ["Traceback"]
    ∧ bql s' = ""
    ∧ prompt s' = def_prompt
    ∧ ∀ ev, journal (raw_input ev s').1 = journal s' ++ [EvRead def_prompt].
Proof.
  apply (C7_failed_statement_is_reported_and_the_loop_goes_on
           (sample_world (Raised "Traceback")) shell0 "select 1;" "select 1;").
  - apply select_falls.
  - vm_compute. reflexivity.
  - vm_compute. reflexivity.
Defined.

(** C3, as the code has it: a cancellation is absorbed wherever it
    strikes.  While the loop is blocked in a read, [^C] is written and
    the loop goes on with the next read.  While a completed statement
    is executed, the [KeyboardInterrupt] is no [Exception]: no traceback
    is written, it leaves the turn, and the same handler writes [^C]
    and goes on with the next read, the buffer already cleared.  The
    same holds for any turn it leaves, and it leaves the handler of
    [.sql] as it leaves [Shell.default]. *)
Theorem C3_cancellation_is_absorbed_wherever_it_strikes
    (W : World) (s : Session) (raw line : string) (rest : list ReadEvent) :
  falls_to_default s raw line →
  bql_string_complete_p W (history s) ((bql s +:+ line) +:+ nl) = Ret true →
  ending (respond W (history s) (Execute ((bql s +:+ line) +:+ nl)))
    = Interrupted →
  cmdloop_from W (CtrlC :: rest) s
    = cmdloop_from W rest (put ("^C" +:+ nl) (record (EvRead (prompt s)) s))
  ∧ (∃ s',
       turn W (Line raw) s = (s', Interrupt)
       ∧ cmdloop_from W (Line raw :: rest) s
         = cmdloop_from W rest (put ("^C" +:+ nl) s')
       ∧ stdout (put ("^C" +:+ nl) s')
         = stdout s
           ++ written (respond W (history s) (Execute ((bql s +:+ line) +:+ nl)))
           ++ ["^C" +:+ nl]
       ∧ bql s' = ""
       ∧ prompt s' = def_prompt)
  ∧ (∀ ev s', turn W ev s = (s', Interrupt) →
       cmdloop_from W (ev :: rest) s
       = cmdloop_from W rest (put ("^C" +:+ nl) s'))
  ∧ (∀ q, ending (respond W (history s) (SqlExecute q)) = Interrupted →
       dot_sql W q s = (after_call W (SqlExecute q) s, Interrupt)).
Proof.
  intros Hfall Hc Hend. split; [reflexivity|]. split; [|split].
  - pose proof (turn_falls W s raw line Hfall) as Hturn.
    destruct Hfall as (cmd & arg & _ & _ & Heof & _).
    set (s1 := set_lastcmd line (record (EvRead (prompt s)) s)) in *.
    assert (Hh : history s1 = history s) by apply (history_read s).
    assert (Hc1 : bql_string_complete_p W (history s1) ((bql s1 +:+ line) +:+ nl)
                  = Ret true) by (rewrite Hh; exact Hc).
    pose proof (default_complete W line s1 Heof Hc1) as Hd.
    cbv zeta in Hd. fold (history s1) in Hd. rewrite Hh in Hd.
    change (bql s1) with (bql s) in Hd.
    rewrite Hend in Hd.
    eexists. split; [by rewrite Hturn, Hd|].
    split; [by rewrite cmdloop_from_cons, Hturn, Hd|].
    split; [|done].
    rewrite stdout_put, stdout_after_call, history_cleared, Hh.
    by rewrite <- app_assoc.
  - intros ev s' Hturn. by rewrite cmdloop_from_cons, Hturn.
  - intros q Hq. unfold dot_sql, bind, try_except. rewrite call_eq.
    fold (history s). by rewrite Hq.
Qed.

Lemma C3_witness :
  cmdloop_from (sample_world Interrupted) (CtrlC :: [EndOfInput]) shell0
    = cmdloop_from (sample_world Interrupted) [EndOfInput]
        (put ("^C" +:+ nl) (record (EvRead (prompt shell0)) shell0))
  ∧ (∃ s',
       turn (sample_world Interrupted) (Line "select 1;") shell0 = (s', Interrupt)
       ∧ cmdloop_from (sample_world Interrupted)
           (Line "select 1;" :: [EndOfInput]) shell0
         = cmdloop_from (sample_world Interrupted) [EndOfInput]
             (put ("^C" +:+ nl) s')
       ∧ stdout (put ("^C" +:+ nl) s')
         = stdout shell0
           ++ written (respond (sample_world Interrupted) (history shell0)
                         (Execute ((bql shell0 +:+ "select 1;") +:+ nl)))
           ++ ["^C" +:+ nl]
       ∧ bql s' = ""
       ∧ prompt s' = def_prompt)
  ∧ (∀ ev s', turn (sample_world Interrupted) ev shell0 = (s', Interrupt) →
       cmdloop_from (sample_world Interrupted) (ev :: [EndOfInput]) shell0
       = cmdloop_from (sample_world Interrupted) [EndOfInput]
           (put ("^C" +:+ nl) s'))
  ∧ (∀ q, ending (respond (sample_world Interrupted) (history shell0)
                    (SqlExecute q)) = Interrupted →
       dot_sql (sample_world Interrupted) q shell0
       = (after_call (sample_world Interrupted) (SqlExecute q) shell0, Interrupt)).
Proof.
  apply (C3_cancellation_is_absorbed_wherever_it_strikes
           (sample_world Interrupted) shell0 "select 1;" "select 1;").
  - apply select_falls.
  - vm_compute. reflexivity.
  - vm_compute. reflexivity.
Defined.

(** C3 fails as stated: a cancellation during the execution of a
    statement, or of the handler of [.sql], is not turned into a
    diagnostic by the [except Exception] around the call.  It leaves
    the method, nothing but [^C] is written for it, and the session goes
    on to its farewell. *)
Lemma C3_counterexample :
  (default (sample_world Interrupted) "select 1;" shell0).2 = Interrupt
  ∧ stdout (default (sample_world Interrupted) "select 1;" shell0).1 = []
  ∧ (dot_sql (sample_world Interrupted) "select 1" shell0).2 = Interrupt
  ∧ stdout (cmdloop (sample_world Interrupted)
              [Line "select 1;"; Line ".sql select 1"; EndOfInput] shell0).1
    = [ "Welcome to the Bayeslite shell." +:+ nl;
        "Type `.help' for help." +:+ nl;
        "^C" +:+ nl; "^C" +:+ nl;
        nl +:+ "Moriturus te querio." +:+ nl ].
Proof. vm_compute. repeat split. Qed.

(** C10: [dot_trace] and [dot_untrace] called with an argument that is
    neither [bql] nor [sql] (the empty one included) write their one
    question and do nothing else: both flags are as before and no call
    is made, so no subscription changes. *)
Theorem C10_trace_with_another_argument_only_asks
    (W : World) (s : Session) (arg : string) :
  arg ≠ "bql" →
  arg ≠ "sql" →
  dot_trace W arg s = (put ("Trace what?" +:+ nl) s, Ret false)
  ∧ dot_untrace W arg s = (put ("Untrace what?" +:+ nl) s, Ret false)
  ∧ ∀ chunk,
      traced (put chunk s) = traced s
      ∧ sql_traced (put chunk s) = sql_traced s
      ∧ journal (put chunk s) = journal s
      ∧ stdout (put chunk s) = stdout s ++ [chunk].
Proof.
  intros Hb Hs. unfold dot_trace, dot_untrace.
  repeat case_decide; try done.
Qed.

Lemma C10_witness :
  dot_trace quiet_world "" shell0 = (put ("Trace what?" +:+ nl) shell0, Ret false)
  ∧ dot_untrace quiet_world "" shell0
    = (put ("Untrace what?" +:+ nl) shell0, Ret false)
  ∧ ∀ chunk,
      traced (put chunk shell0) = traced shell0
      ∧ sql_traced (put chunk shell0) = sql_traced shell0
      ∧ journal (put chunk shell0) = journal shell0
      ∧ stdout (put chunk shell0) = stdout shell0 ++ [chunk].
Proof.
  apply (C10_trace_with_another_argument_only_asks quiet_world shell0 "").
  - vm_compute. intros H. inversion H.
  - vm_compute. intros H. inversion H.
Defined.

(** ** Statements over several lines *)

Section Lines.

Context (W : World).

Lemma app_nl_nonempty (a : string) : a +:+ nl ≠ "".
Proof. by destruct a. Qed.

Lemma buffered_from_nonempty (b : string) (lines : list string) :
  b ≠ "" → buffered_from b lines ≠ "".
Proof.
  revert b. induction lines as [|l lines IH]; intros b Hb; [done|].
  apply IH, app_nl_nonempty.
Qed.

Lemma feed_app (l1 l2 : list string) (s : Session) :
  feed W (l1 ++ l2) s
    = (stop <- feed W l1 ;; if stop then ret true else feed W l2) s.
Proof.
  revert s. induction l1 as [|l l1 IH]; intros s; [done|].
  simpl. unfold bind.
  destruct (default W l s) as [s' [[|]| | |]]; [done| |done..].
  apply IH.
Qed.

(** While the buffered text stays incomplete the lines pile up and
    nothing else happens. *)
Lemma feed_incomplete (lines : list string) (s : Session) :
  Forall (λ l, l ≠ "EOF") lines →
  (∀ k, 0 < k ≤ length lines →
        bql_string_complete_p W (history s) (buffered_from (bql s) (take k lines)) = Ret false) →
  feed W lines s =
    (match lines with
     | [] => s
     | _ => set_prompt bql_prompt (set_bql (buffered_from (bql s) lines) s)
     end, Ret false).
Proof.
  revert s. induction lines as [|l lines IH]; intros s Hne Hinc; [done|].
  apply Forall_cons in Hne as [Hl Hne].
  assert (H1 : bql_string_complete_p W (history s) ((bql s +:+ l) +:+ nl) = Ret false).
  { apply (Hinc 1). simpl. lia. }
  simpl. unfold bind at 1. rewrite (default_incomplete W l s Hl H1).
  rewrite IH; [by destruct lines|done|].
  intros k Hk. apply (Hinc (S k)). simpl. lia.
Qed.

End Lines.

(** C4: lines other than [EOF] are fed to an idle accumulator, the
    buffered text being incomplete after each of them but the last and
    complete after the last.  Then after every line but the last the
    accumulator is accumulating, holds the lines so far and has made no
    call; after the last it is idle again, and in between the buffer
    was replaced once and the executor called once, on the whole text. *)
Theorem C4_one_statement_over_several_lines
    (W : World) (s : Session) (lines : list string) (last : string) :
  idle s →
  Forall (λ l, l ≠ "EOF") (lines ++ [last]) →
  (∀ k, 0 < k ≤ length lines →
        bql_string_complete_p W (history s) (buffered (take k lines)) = Ret false) →
  bql_string_complete_p W (history s) (buffered (lines ++ [last])) = Ret true →
  (∀ k, 0 < k ≤ length lines →
        accumulating (feed W (take k lines) s).1
        ∧ bql (feed W (take k lines) s).1 = buffered (take k lines)
        ∧ journal (feed W (take k lines) s).1 = journal s)
  ∧ idle (feed W (lines ++ [last]) s).1
  ∧ journal (feed W (lines ++ [last]) s).1
    = journal s ++ [EvClear; EvCall (Execute (buffered (lines ++ [last])))].
Proof.
  intros [Hb Hp] Hne Hinc Hc.
  apply Forall_app in Hne as [Hne Hlast]. rewrite Forall_singleton in Hlast.
  assert (Hpre : ∀ k, k ≤ length lines →
            feed W (take k lines) s =
              (match take k lines with
               | [] => s
               | _ => set_prompt bql_prompt
                        (set_bql (buffered (take k lines)) s)
               end, Ret false)).
  { intros k Hk. unfold buffered. rewrite <- Hb. apply feed_incomplete.
    - by apply Forall_take.
    - intros j Hj. rewrite Hb, take_take.
      rewrite length_take in Hj. apply Hinc. lia. }
  split.
  - intros k Hk. rewrite (Hpre k) by lia.
    destruct (take k lines) as [|l tl] eqn:Htake.
    { apply (f_equal length) in Htake. rewrite length_take in Htake.
      simpl in Htake. lia. }
    split; [split; [|done]|done].
    change (buffered_from (("" +:+ l) +:+ nl) tl ≠ "").
    apply buffered_from_nonempty, app_nl_nonempty.
  - pose proof (Hpre (length lines)) as Hall. rewrite firstn_all in Hall.
    specialize (Hall (reflexivity _)). clear Hpre.
    set (s1 := match lines with
               | [] => s
               | _ => set_prompt bql_prompt (set_bql (buffered lines) s)
               end) in Hall.
    assert (Hs1 : bql s1 = buffered lines ∧ journal s1 = journal s).
    { subst s1. destruct lines; [by rewrite Hb|done]. }
    destruct Hs1 as [Hb1 Hj1]. clearbody s1.
    assert (Hfeed : (feed W (lines ++ [last]) s).1 = (default W last s1).1).
    { rewrite feed_app. unfold bind at 1. rewrite Hall. simpl. unfold bind.
      by destruct (default W last s1) as [s' [[|]| | |]]. }
    assert (Hfull : buffered (lines ++ [last]) = (bql s1 +:+ last) +:+ nl).
    { rewrite Hb1. unfold buffered, buffered_from. by rewrite foldl_snoc. }
    rewrite Hfull in Hc |- *. rewrite Hfeed.
    assert (Hc1 : bql_string_complete_p W (history s1) ((bql s1 +:+ last) +:+ nl)
                  = Ret true).
    { unfold history. rewrite Hj1. exact Hc. }
    rewrite (default_complete W last s1 Hlast Hc1). cbv zeta.
    destruct (ending _); simpl; rewrite Hj1, <- app_assoc; done.
Qed.

Lemma C4_witness :
  (∀ k, 0 < k ≤ length ["select x"; "from t"] →
        accumulating (feed quiet_world (take k ["select x"; "from t"]) shell0).1
        ∧ bql (feed quiet_world (take k ["select x"; "from t"]) shell0).1
          = buffered (take k ["select x"; "from t"])
        ∧ journal (feed quiet_world (take k ["select x"; "from t"]) shell0).1
          = journal shell0)
  ∧ idle (feed quiet_world (["select x"; "from t"] ++ ["where y;"]) shell0).1
  ∧ journal (feed quiet_world (["select x"; "from t"] ++ ["where y;"]) shell0).1
    = journal shell0
      ++ [EvClear;
          EvCall (Execute (buffered (["select x"; "from t"] ++ ["where y;"])))].
Proof.
  apply (C4_one_statement_over_several_lines
           quiet_world shell0 ["select x"; "from t"] "where y;").
  - split; reflexivity.
  - repeat constructor; vm_compute; intros H; inversion H.
  - intros k Hk. simpl in Hk.
    destruct k as [|[|[|k]]]; [lia|vm_compute; reflexivity..|lia].
  - vm_compute. reflexivity.
Defined.

(** ** Trace toggles *)

Section Tracers.

Context (W : World).

Lemma parse_trace (t : Tracer) :
  parseline (".trace " +:+ tracer_arg t)
    = (Some ".trace", Some (tracer_arg t), ".trace " +:+ tracer_arg t).
Proof. by destruct t. Qed.

Lemma parse_untrace (t : Tracer) :
  parseline (".untrace " +:+ tracer_arg t)
    = (Some ".untrace", Some (tracer_arg t), ".untrace " +:+ tracer_arg t).
Proof. by destruct t. Qed.

Lemma turn_trace (t : Tracer) (s : Session) :
  attrs s !! "trace" = Some MTrace →
  turn W (Line (".trace " +:+ tracer_arg t)) s
    = dot_trace W (tracer_arg t)
        (set_lastcmd (".trace " +:+ tracer_arg t)
           (record (EvRead (prompt s)) s)).
Proof.
  intros Ha. unfold turn, bind, raw_input, onecmd, onecmd_at.
  rewrite parse_trace. case_decide as Hl; [by destruct t|].
  unfold dispatch, bind, upd. case_decide as He; [by destruct t|].
  unfold ret. case_decide; [done|].
  unfold getattr_do. case_decide; [done|]. case_decide; [|done].
  simpl. by rewrite Ha.
Qed.

Lemma turn_untrace (t : Tracer) (s : Session) :
  attrs s !! "untrace" = Some MUntrace →
  turn W (Line (".untrace " +:+ tracer_arg t)) s
    = dot_untrace W (tracer_arg t)
        (set_lastcmd (".untrace " +:+ tracer_arg t)
           (record (EvRead (prompt s)) s)).
Proof.
  intros Ha. unfold turn, bind, raw_input, onecmd, onecmd_at.
  rewrite parse_untrace. case_decide as Hl; [by destruct t|].
  unfold dispatch, bind, upd. case_decide as He; [by destruct t|].
  unfold ret. case_decide; [done|].
  unfold getattr_do. case_decide; [done|]. case_decide; [|done].
  simpl. by rewrite Ha.
Qed.

(** The first [.trace] subscribes and sets the flag. *)
Lemma dot_trace_fresh (t : Tracer) (s : Session) (v : Value) :
  tracing t s = false →
  ending (respond W (history s) (subscribe t)) = Returned v →
  dot_trace W (tracer_arg t) s
    = (set_tracing t true (after_call W (subscribe t) s), Ret false).
Proof.
  intros Hf Hv. destruct t; simpl in *; unfold dot_trace;
    repeat (case_decide; try done); rewrite Hf;
    unfold bind; rewrite call_eq; fold (history s); by rewrite Hv.
Qed.

(** A [.trace] on a set flag does nothing at all. *)
Lemma dot_trace_again (t : Tracer) (s : Session) :
  tracing t s = true → dot_trace W (tracer_arg t) s = (s, Ret false).
Proof.
  intros Hf. destruct t; simpl in *; unfold dot_trace;
    repeat (case_decide; try done); by rewrite Hf.
Qed.

(** The first [.untrace] unsubscribes and clears the flag. *)
Lemma dot_untrace_set (t : Tracer) (s : Session) (v : Value) :
  tracing t s = true →
  ending (respond W (history s) (unsubscribe t)) = Returned v →
  dot_untrace W (tracer_arg t) s
    = (set_tracing t false (after_call W (unsubscribe t) s), Ret false).
Proof.
  intros Hf Hv. destruct t; simpl in *; unfold dot_untrace;
    repeat (case_decide; try done); rewrite Hf;
    unfold bind; rewrite call_eq; fold (history s); by rewrite Hv.
Qed.

(** An [.untrace] on a clear flag does nothing at all. *)
Lemma dot_untrace_again (t : Tracer) (s : Session) :
  tracing t s = false → dot_untrace W (tracer_arg t) s = (s, Ret false).
Proof.
  intros Hf. destruct t; simpl in *; unfold dot_untrace;
    repeat (case_decide; try done); by rewrite Hf.
Qed.

Lemma history_after_call (c : Call) (s : Session) :
  history (after_call W c s) = history s ++ [c].
Proof. unfold history. simpl. by rewrite calls_of_app. Qed.

End Tracers.

(** C6: the four lines [.trace x], [.trace x], [.untrace x],
    [.untrace x], for [x] either [sql] or [bql], read one after the
    other by a session whose flag for [x] is clear and whose
    collaborator returns from the two registrations: the loop goes on
    after them, the calls made are exactly one subscription followed by
    one unsubscription, and the flag is clear again.  The second
    [.trace] and the second [.untrace] are handled by the branches that
    leave the whole object as it is. *)
Theorem C6_trace_toggles_are_idempotent
    (W : World) (t : Tracer) (s : Session) (rest : list ReadEvent) :
  attrs s !! "trace" = Some MTrace →
  attrs s !! "untrace" = Some MUntrace →
  tracing t s = false →
  returns W (subscribe t) →
  returns W (unsubscribe t) →
  (∃ s',
     cmdloop_from W
       (Line (".trace " +:+ tracer_arg t) :: Line (".trace " +:+ tracer_arg t)
        :: Line (".untrace " +:+ tracer_arg t)
        :: Line (".untrace " +:+ tracer_arg t) :: rest) s
     = cmdloop_from W rest s'
     ∧ history s' = history s ++ [subscribe t; unsubscribe t]
     ∧ tracing t s' = false)
  ∧ (∀ u, tracing t u = true → dot_trace W (tracer_arg t) u = (u, Ret false))
  ∧ (∀ u, tracing t u = false → dot_untrace W (tracer_arg t) u = (u, Ret false)).
Proof.
  intros Hon Hoff Hclear Hsub Hunsub.
  split; [|split; [apply dot_trace_again|apply dot_untrace_again]].
  (* first [.trace] *)
  set (on := ".trace " +:+ tracer_arg t). set (off := ".untrace " +:+ tracer_arg t).
  set (r1 := set_lastcmd on (record (EvRead (prompt s)) s)).
  destruct (Hsub (history r1)) as [v1 Hv1].
  set (s1 := set_tracing t true (after_call W (subscribe t) r1)).
  assert (H1 : turn W (Line on) s = (s1, Ret false)).
  { unfold on. rewrite turn_trace by done.
    apply (dot_trace_fresh W t r1 v1); [by destruct t|done]. }
  assert (Hs1 : attrs s1 = attrs s ∧ tracing t s1 = true
                ∧ history s1 = history s ++ [subscribe t]).
  { split; [by destruct t|]. split; [by destruct t|].
    transitivity (history (after_call W (subscribe t) r1)); [by destruct t|].
    rewrite history_after_call. f_equal. apply (history_read s). }
  destruct Hs1 as (Ha1 & Hf1 & Hh1). clearbody s1. clear r1 Hv1.
  (* second [.trace] *)
  set (s2 := set_lastcmd on (record (EvRead (prompt s1)) s1)).
  assert (H2 : turn W (Line on) s1 = (s2, Ret false)).
  { unfold on. rewrite turn_trace by (by rewrite Ha1).
    apply dot_trace_again. by destruct t. }
  assert (Hs2 : attrs s2 = attrs s ∧ tracing t s2 = true
                ∧ history s2 = history s ++ [subscribe t]).
  { split; [done|]. split; [by destruct t|].
    rewrite <- Hh1. apply (history_read s1). }
  destruct Hs2 as (Ha2 & Hf2 & Hh2). clearbody s2.
  (* first [.untrace] *)
  set (r3 := set_lastcmd off (record (EvRead (prompt s2)) s2)).
  destruct (Hunsub (history r3)) as [v3 Hv3].
  set (s3 := set_tracing t false (after_call W (unsubscribe t) r3)).
  assert (H3 : turn W (Line off) s2 = (s3, Ret false)).
  { unfold off. rewrite turn_untrace by (by rewrite Ha2).
    apply (dot_untrace_set W t r3 v3); [by destruct t|done]. }
  assert (Hs3 : attrs s3 = attrs s ∧ tracing t s3 = false
                ∧ history s3 = history s ++ [subscribe t; unsubscribe t]).
  { split; [by destruct t|]. split; [by destruct t|].
    transitivity (history (after_call W (unsubscribe t) r3)); [by destruct t|].
    rewrite history_after_call.
    transitivity ((history s ++ [subscribe t]) ++ [unsubscribe t]);
      [|by rewrite <- app_assoc].
    f_equal. rewrite <- Hh2. apply (history_read s2). }
  destruct Hs3 as (Ha3 & Hf3 & Hh3). clearbody s3. clear r3 Hv3.
  (* second [.untrace] *)
  set (s4 := set_lastcmd off (record (EvRead (prompt s3)) s3)).
  assert (H4 : turn W (Line off) s3 = (s4, Ret false)).
  { unfold off. rewrite turn_untrace by (by rewrite Ha3).
    apply dot_untrace_again. by destruct t. }
  exists s4. split.
  - rewrite cmdloop_from_cons, H1, cmdloop_from_cons, H2.
    by rewrite cmdloop_from_cons, H3, cmdloop_from_cons, H4.
  - split; [|by destruct t].
    rewrite <- Hh3. apply (history_read s3).
Qed.

Lemma shell0_trace : attrs shell0 !! "trace" = Some MTrace.
Proof. by vm_compute. Qed.

Lemma shell0_untrace : attrs shell0 !! "untrace" = Some MUntrace.
Proof. by vm_compute. Qed.

Lemma C6_witness :
  (∃ s',
     cmdloop_from quiet_world
       (Line (".trace " +:+ tracer_arg Sql) :: Line (".trace " +:+ tracer_arg Sql)
        :: Line (".untrace " +:+ tracer_arg Sql)
        :: Line (".untrace " +:+ tracer_arg Sql) :: [EndOfInput]) shell0
     = cmdloop_from quiet_world [EndOfInput] s'
     ∧ history s' = history shell0 ++ [subscribe Sql; unsubscribe Sql]
     ∧ tracing Sql s' = false)
  ∧ (∀ u, tracing Sql u = true →
          dot_trace quiet_world (tracer_arg Sql) u = (u, Ret false))
  ∧ (∀ u, tracing Sql u = false →
          dot_untrace quiet_world (tracer_arg Sql) u = (u, Ret false)).
Proof.
  apply (C6_trace_toggles_are_idempotent quiet_world Sql shell0 [EndOfInput]).
  - exact shell0_trace.
  - exact shell0_untrace.
  - reflexivity.
  - intros h. exists VNone. reflexivity.
  - intros h. exists VNone. reflexivity.
Defined.

(** ** The registry and [.help] *)

Section Registry.

Context (W : World).

Lemma install_all_snoc (l : list (string * Method)) (x : string * Method)
    (s : Session) :
  install_all (l ++ [x]) s = install_all l s ≫= _installcmd x.1 x.2.
Proof. unfold install_all. by rewrite foldl_snoc. Qed.

Lemma installcmd_fresh (name : string) (m : Method)
    (l : list (string * Method)) :
  name ∉ l.*1 →
  _installcmd name m (installed l) = Some (installed (l ++ [(name, m)])).
Proof.
  intros Hfresh. unfold _installcmd.
  case_decide as Ha.
  { exfalso. simpl in Ha. apply Hfresh.
    destruct Ha as [m' Hm']. apply elem_of_list_to_map_2 in Hm'.
    apply list_elem_of_fmap. by exists (name, m'). }
  case_decide as Hc.
  { exfalso. simpl in Hc. by apply elem_of_list_to_set in Hc. }
  f_equal. unfold install_attr, installed. simpl. f_equal.
  - rewrite fmap_app, list_to_set_app_L. simpl.
    rewrite (right_id_L ∅ (∪)). apply (comm_L (∪)).
  - by rewrite list_to_map_snoc.
Qed.

(** The installations succeed exactly when no name comes twice, and
    then the object holds them all. *)
Lemma install_all_Some (l : list (string * Method)) (s : Session) :
  install_all l blank = Some s ↔ NoDup l.*1 ∧ s = installed l.
Proof.
  revert s. induction l as [|x l IH] using rev_ind; intros s.
  - split.
    + intros [= <-]. split; [constructor|done].
    + by intros [_ ->].
  - rewrite install_all_snoc. destruct x as [name m]. simpl. split.
    + intros H. destruct (install_all l blank) as [s1|] eqn:H1; [|done].
      simpl in H. destruct (IH s1) as [IH1 _].
      destruct (IH1 eq_refl) as [Hnd ->]. clear IH IH1.
      assert (Hfresh : name ∉ l.*1).
      { intros Hin. unfold _installcmd in H.
        case_decide; [done|]. case_decide as Hc; [done|].
        apply Hc. simpl. by apply elem_of_list_to_set. }
      rewrite installcmd_fresh in H by done. injection H as <-.
      split; [|done]. rewrite fmap_app. apply NoDup_app.
      split; [done|]. split; [|by apply NoDup_singleton].
      intros y Hy Hy'. apply elem_of_cons in Hy' as [->|Hnil]; [done|].
      by apply elem_of_nil in Hnil.
    + intros [Hnd ->]. rewrite fmap_app in Hnd.
      apply NoDup_app in Hnd as (Hnd & Hfresh & _).
      assert (H1 : install_all l blank = Some (installed l)) by by apply IH.
      rewrite H1. simpl. apply installcmd_fresh.
      intros Hin. apply (Hfresh name Hin). by left.
Qed.

(** The order of the installations does not show in the object. *)
Lemma install_order_irrelevant (l l' : list (string * Method)) (s : Session) :
  l' ≡ₚ l → install_all l blank = Some s → install_all l' blank = Some s.
Proof.
  intros Hperm [Hnd ->]%install_all_Some. apply install_all_Some.
  assert (Hnd' : NoDup l'.*1) by by rewrite Hperm.
  split; [done|]. unfold installed. f_equal.
  - apply set_eq. intros x. rewrite !elem_of_list_to_set. by rewrite Hperm.
  - by apply list_to_map_proper.
Qed.

(** Every docstring has a summary and at least one more line. *)
Lemma doc_two_lines (m : Method) :
  ∃ d0 d1 ds, doc_lines m = d0 :: d1 :: ds.
Proof. destruct m; vm_compute; eauto. Qed.

Lemma help_list_writes (pad : nat) (names : list string) (s : Session) :
  (∀ n, n ∈ names → is_Some (attrs s !! n)) →
  help_list pad names s
    = (put_all (summary_line (attrs s) pad <$> names) s, Ret tt).
Proof.
  revert s. induction names as [|n names IH]; intros s Hall.
  - simpl. unfold ret, put_all. simpl. rewrite app_nil_r. by destruct s.
  - destruct (Hall n) as [m Hm]; [by left|].
    destruct (doc_two_lines m) as (d0 & d1 & ds & Hdoc).
    simpl. rewrite Hm, Hdoc. unfold bind, write, upd.
    rewrite IH by (intros n' Hn'; apply Hall; by right).
    f_equal. unfold summary_line at 2. rewrite Hm, Hdoc. simpl.
    unfold put_all, put. simpl. f_equal. by rewrite <- app_assoc.
Qed.

Lemma parse_help : parseline ".help" = (Some ".help", Some "", ".help").
Proof. reflexivity. Qed.

Lemma onecmd_help (s : Session) :
  attrs s !! "help" = Some MHelp →
  onecmd W ".help" s = dot_help W "" (set_lastcmd ".help" s).
Proof.
  intros Ha. unfold onecmd, onecmd_at. rewrite parse_help.
  case_decide; [done|]. unfold dispatch, bind, upd.
  case_decide; [done|]. unfold ret. case_decide; [done|].
  unfold getattr_do. case_decide; [done|]. case_decide; [|done].
  simpl. by rewrite Ha.
Qed.

End Registry.


Lemma shell0_installed : install_all declared blank = Some shell0.
Proof. by vm_compute. Qed.

Lemma shell0_help : attrs shell0 !! "help" = Some MHelp.
Proof. by vm_compute. Qed.


(** The listing of the shell as constructed, and of the same commands
    installed backwards. *)
Example help_of_shell0 :
  stdout (onecmd quiet_world ".help" shell0).1
    = [ "   .codebook    load codebook for table" +:+ nl;
        "        .csv    create table from CSV file" +:+ nl;
        "   .describe    describe BayesDB entities" +:+ nl;
        "       .help    show help for commands" +:+ nl;
        " .loadmodels    load legacy models" +:+ nl;
        "     .python    evaluate a Python expression" +:+ nl;
        "        .sql    execute a SQL query" +:+ nl;
        "      .trace    trace queries" +:+ nl;
        "    .untrace    untrace queries" +:+ nl;
        "Type `.help <cmd>' for help on the command <cmd>." +:+ nl ]
  ∧ install_all (reverse declared) blank = Some shell0.
Proof. split; by vm_compute. Qed.

(** ** Prompts *)

Section Prompts.

Context (W : World).

Lemma tame_refl (s : Session) : tame s s.
Proof. split; [done|by left]. Qed.

Lemma tame_trans (s1 s2 s3 : Session) : tame s1 s2 → tame s2 s3 → tame s1 s3.
Proof.
  intros [Hj12 Hp12] [Hj23 Hp23]. split; [congruence|].
  destruct Hp23 as [Hp23|Hp23]; [|by right].
  rewrite Hp23. exact Hp12.
Qed.

Lemma tamed_apply {A} (m : M A) (s : Session) : tamed m → tame s (m s).1.
Proof. intros H. apply H. Qed.

Lemma tamed_ret {A} (a : A) : tamed (ret a).
Proof. intros s. apply tame_refl. Qed.

Lemma tamed_raise {A} (tb : string) : tamed (@raise A tb).
Proof. intros s. apply tame_refl. Qed.

Lemma tamed_bind {A B} (m : M A) (k : A → M B) :
  tamed m → (∀ a, tamed (k a)) → tamed (bind m k).
Proof.
  intros Hm Hk s. unfold bind. specialize (Hm s).
  destruct (m s) as [s' [a| | |]]; [|done..].
  eapply tame_trans; [exact Hm|apply Hk].
Qed.

Lemma tamed_try {A} (m : M A) (handler : string → M A) :
  tamed m → (∀ tb, tamed (handler tb)) → tamed (try_except m handler).
Proof.
  intros Hm Hh s. unfold try_except. specialize (Hm s).
  destruct (m s) as [s' [a|tb| |]]; [done| |done..].
  eapply tame_trans; [exact Hm|apply Hh].
Qed.

Lemma tamed_upd (f : Session → Session) :
  (∀ s, tame s (f s)) → tamed (upd f).
Proof. intros Hf s. apply Hf. Qed.

Lemma tamed_write (chunk : string) : tamed (write chunk).
Proof. intros s. split; [done|by left]. Qed.

Lemma tamed_call (c : Call) : tamed (call W c).
Proof.
  intros s. rewrite call_eq. split; [|by left].
  simpl. rewrite prompts_shown_app. simpl. apply app_nil_r.
Qed.

Lemma tamed_ended {A} (r : Result A) : tamed (ended r).
Proof. intros s. apply tame_refl. Qed.

Lemma tamed_py_eval (line : string) :
  eval_keeps W tame → tamed (py_eval W line).
Proof.
  intros Heval s. unfold py_eval.
  pose proof (tamed_call (PyEval line) s) as Hcall.
  destruct (call W (PyEval line) s) as [s' r].
  eapply tame_trans; [exact Hcall|apply Heval].
Qed.

End Prompts.

Create HintDb tamed.

#[local] Hint Resolve tamed_ret tamed_raise tamed_write tamed_call
  tamed_ended tamed_py_eval : tamed.

(** An assignment that shows no prompt and leaves the prompt alone or
    sets one of the two. *)
Ltac tame_assignment :=
  split;
  [ cbn; rewrite ?prompts_shown_app; cbn; rewrite ?app_nil_r; reflexivity
  | first [ left; reflexivity
          | right; left; reflexivity
          | right; right; reflexivity ] ].

(** One step through the body of a method. *)
Ltac tamed_step :=
  match goal with
  | |- tamed (bind _ _) => apply tamed_bind; [|intros ?]
  | |- tamed (try_except _ _) => apply tamed_try; [|intros ?]
  | |- tamed (upd _) => apply tamed_upd; intros ?; tame_assignment
  | |- tamed (if ?b then _ else _) => destruct b
  | |- tamed (match ?x with _ => _ end) => destruct x
  | |- tamed (let '(_, _) := ?x in _) => destruct x
  | |- tamed (fun _ => _) =>
      let s := fresh "s" in intros s; cbv beta zeta
  | |- tame ?s (match ?x with _ => _ end).1 => destruct x
  | |- tame ?s (if ?b then _ else _).1 => destruct b
  | |- tame ?s (?m ?s).1 => apply (tamed_apply m s)
  | |- tamed _ => solve [eauto with tamed]
  end.

Ltac tamed := repeat tamed_step.

Section Methods.

Context (W : World).

Hypothesis Heval : eval_keeps W tame.

Lemma tamed_default (line : string) : tamed (default W line).
Proof. unfold default. tamed. Qed.

Lemma tamed_help_list (pad : nat) (names : list string) :
  tamed (help_list pad names).
Proof. induction names as [|n names IH]; simpl; tamed. Qed.

Lemma tamed_help_topics (tokens : list string) :
  tamed (help_topics W tokens).
Proof. induction tokens as [|n tokens IH]; simpl; tamed. Qed.

Lemma tamed_check_names (has : string → Call) (what : string)
    (params : list string) (ok : bool) :
  tamed (check_names W has what params ok).
Proof. revert ok. induction params as [|n params IH]; intros ok; simpl; tamed. Qed.

Lemma tamed_guarantee_all (params : list string) :
  tamed (guarantee_all W params).
Proof. induction params as [|n params IH]; simpl; tamed. Qed.

Lemma tamed_collect_modelnos (generator_id : Value) (tokens : list string)
    (modelnos : list Z) :
  tamed (collect_modelnos W generator_id tokens modelnos).
Proof.
  revert modelnos.
  induction tokens as [|n tokens IH]; intros modelnos; simpl; tamed.
Qed.

Hint Resolve tamed_default tamed_help_list tamed_help_topics
  tamed_check_names tamed_guarantee_all tamed_collect_modelnos : tamed.

Lemma tamed_invoke (m : Method) (arg : string) : tamed (invoke W m arg).
Proof.
  destruct m; simpl;
    [ unfold dot_codebook | unfold dot_csv | unfold dot_describe
    | unfold dot_help | unfold dot_loadmodels | unfold dot_python
    | unfold dot_sql | unfold dot_trace | unfold dot_untrace ];
    tamed.
Qed.

Lemma tamed_do_help (arg : string) : tamed (do_help W arg).
Proof. intros s. split; [done|by left]. Qed.

Hint Resolve tamed_invoke tamed_do_help : tamed.

Lemma tamed_dispatch (cmd : option string) (arg line : string) :
  tamed (dispatch W cmd arg line).
Proof. unfold dispatch. tamed. Qed.

Hint Resolve tamed_dispatch : tamed.

Lemma tamed_onecmd_at (depth : nat) (line : string) :
  tamed (onecmd_at W depth line).
Proof.
  revert line. induction depth as [|depth IH]; intros line; simpl;
    destruct (parseline line) as [[cmd arg] line']; tamed.
Qed.

Lemma tamed_onecmd (line : string) : tamed (onecmd W line).
Proof. apply tamed_onecmd_at. Qed.

End Methods.

(** ** The prompt over a whole session *)

Section Sessions.

Context (W : World).

Hypothesis Heval : eval_keeps W tame.

Lemma prompts_fine_tame (s s' : Session) :
  prompts_fine s → tame s s' → prompts_fine s'.
Proof.
  intros [Hp Hj] [Hj' Hp']. split.
  - destruct Hp' as [Hp'|Hp']; [by rewrite Hp'|done].
  - by rewrite Hj'.
Qed.

Lemma prompts_fine_turn (ev : ReadEvent) (s : Session) :
  prompts_fine s → prompts_fine (turn W ev s).1.
Proof.
  intros [Hp Hj].
  assert (Hread : prompts_fine (record (EvRead (prompt s)) s)).
  { split; [done|]. simpl. rewrite prompts_shown_app. simpl.
    apply Forall_app. split; [done|]. by constructor. }
  unfold turn, bind, raw_input. destruct ev; [| |done].
  - eapply prompts_fine_tame; [exact Hread|by apply tamed_onecmd].
  - eapply prompts_fine_tame; [exact Hread|by apply tamed_onecmd].
Qed.

Lemma reachable_prompts_fine (s : Session) :
  reachable W s → prompts_fine s.
Proof.
  induction 1 as [s Hinit|s chunk _ IH|s ev _ IH|s line _ IH|s line _ IH
                 |s m arg _ IH|s arg _ IH].
  - assert (Hs : Shell_init = Some shell0) by (vm_compute; reflexivity).
    rewrite Hs in Hinit. injection Hinit as <-.
    split; [left|]; vm_compute; [reflexivity|constructor].
  - eapply prompts_fine_tame; [exact IH|]. split; [done|by left].
  - by apply prompts_fine_turn.
  - eapply prompts_fine_tame; [exact IH|by apply tamed_onecmd].
  - eapply prompts_fine_tame; [exact IH|by apply tamed_default].
  - eapply prompts_fine_tame; [exact IH|by apply tamed_invoke].
  - eapply prompts_fine_tame; [exact IH|by apply tamed_do_help].
Qed.

(** Every state a run of the loop ends in, or waits in, is reachable. *)
Lemma cmdloop_from_reachable (input : list ReadEvent) (s : Session) :
  reachable W s → reachable W (cmdloop_from W input s).1.
Proof.
  revert s. induction input as [|ev input IH]; intros s Hs; [done|].
  rewrite cmdloop_from_cons.
  pose proof (reach_turn W s ev Hs) as Ht.
  destruct (turn W ev s) as [s' [[|]|tb| |]]; simpl in *; [done| |done| |done].
  - by apply IH.
  - by apply IH, reach_put.
Qed.

Lemma cmdloop_reachable (input : list ReadEvent) (s : Session) :
  reachable W s → reachable W (cmdloop W input s).1.
Proof.
  intros Hs. unfold cmdloop. by apply cmdloop_from_reachable, reach_put, reach_put.
Qed.

End Sessions.




(** ** Frames *)

Lemma keeps_apply (R : relation Session) {A} (m : M A) (s : Session) :
  keeps R m → R s (m s).1.
Proof. intros H. apply H. Qed.

Section Framing.

Context (R : relation Session) `{!Frame R}.

Lemma frame_put (chunk : string) (s : Session) : R s (put chunk s).
Proof. apply (frame_put_all [chunk]). Qed.

Lemma keeps_ret {A} (a : A) : keeps R (ret a).
Proof. intros s. apply frame_refl. Qed.

Lemma keeps_raise {A} (tb : string) : keeps R (@raise A tb).
Proof. intros s. apply frame_refl. Qed.

Lemma keeps_bind {A B} (m : M A) (k : A → M B) :
  keeps R m → (∀ a, keeps R (k a)) → keeps R (bind m k).
Proof.
  intros Hm Hk s. unfold bind. specialize (Hm s).
  destruct (m s) as [s' [a| | |]]; [|done..].
  eapply frame_trans; [exact Hm|apply Hk].
Qed.

Lemma keeps_try {A} (m : M A) (handler : string → M A) :
  keeps R m → (∀ tb, keeps R (handler tb)) → keeps R (try_except m handler).
Proof.
  intros Hm Hh s. unfold try_except. specialize (Hm s).
  destruct (m s) as [s' [a|tb| |]]; [done| |done..].
  eapply frame_trans; [exact Hm|apply Hh].
Qed.

Lemma keeps_ended {A} (r : Result A) : keeps R (ended r).
Proof. intros s. apply frame_refl. Qed.

Lemma keeps_upd (f : Session → Session) :
  (∀ s, R s (f s)) → keeps R (upd f).
Proof. intros Hf s. apply Hf. Qed.

Lemma keeps_write (chunk : string) : keeps R (write chunk).
Proof. intros s. apply frame_put. Qed.

Lemma keeps_call (W : World) (c : Call) : frame_ok c → keeps R (call W c).
Proof.
  intros Hc s. rewrite call_eq. unfold after_call.
  eapply frame_trans; [by apply frame_record|apply frame_put_all].
Qed.

Lemma keeps_py_eval (W : World) (line : string) :
  eval_keeps W R → frame_ok (PyEval line) → keeps R (py_eval W line).
Proof.
  intros Heval Hc s. unfold py_eval.
  pose proof (keeps_call W (PyEval line) Hc s) as Hcall.
  destruct (call W (PyEval line) s) as [s' r].
  eapply frame_trans; [exact Hcall|apply Heval].
Qed.

Lemma keeps_do_help (W : World) (arg : string) : keeps R (do_help W arg).
Proof. intros s. apply frame_put_all. Qed.

End Framing.

Create HintDb frames.

(** A side condition of a frame: an assignment that respects it, or a
    call it allows. *)
Ltac frame_side :=
  solve [ done
        | hnf; cbn; repeat split;
          first [done | by apply prefix_app_r | eauto with frames]
        | hnf; let H := fresh in intros H; exact H
        | eauto with frames ].

(** One step through the body of a method. *)
Ltac keeps_step :=
  match goal with
  | |- keeps _ (ret _) => apply keeps_ret; apply _
  | |- keeps _ (raise _) => apply keeps_raise; apply _
  | |- keeps _ (write _) => apply keeps_write; apply _
  | |- keeps _ (ended _) => apply keeps_ended; apply _
  | |- keeps _ (call _ _) =>
      simple refine (@keeps_call _ _ _ _ _); frame_side
  | |- keeps _ (py_eval _ _) =>
      simple refine (@keeps_py_eval _ _ _ _ _ _); [assumption|frame_side]
  | |- keeps _ (bind _ _) => apply keeps_bind; [apply _| |intros ?]
  | |- keeps _ (try_except _ _) => apply keeps_try; [apply _| |intros ?]
  | |- keeps _ (upd _) => apply keeps_upd; intros ?; frame_side
  | |- keeps _ (if ?b then _ else _) => destruct b
  | |- keeps _ (match ?x with _ => _ end) => destruct x
  | |- keeps _ (fun _ => _) =>
      let s := fresh "s" in intros s; cbv beta zeta
  | |- ?R ?s (match ?x with _ => _ end).1 => destruct x
  | |- ?R ?s (if ?b then _ else _).1 => destruct b
  | |- ?R ?s (?m ?s).1 => apply (keeps_apply R m s)
  | |- keeps _ _ => solve [eauto with frames typeclass_instances]
  end.

Ltac keeps_tac := repeat keeps_step.

(** The loops of the handlers keep what their calls allow. *)
Section Loops.

Context (W : World) (R : relation Session) `{!Frame R}.

Lemma keeps_help_list (pad : nat) (names : list string) :
  keeps R (help_list pad names).
Proof. induction names as [|n names IH]; simpl; keeps_tac. Qed.

Lemma keeps_help_topics (tokens : list string) :
  keeps R (help_topics W tokens).
Proof. induction tokens as [|n tokens IH]; simpl; keeps_tac. Qed.

Lemma keeps_check_names (has : string → Call) (what : string)
    (params : list string) (ok : bool) :
  (∀ name, frame_ok (has name)) →
  keeps R (check_names W has what params ok).
Proof.
  intros Hhas. revert ok.
  induction params as [|n params IH]; intros ok; simpl; keeps_tac.
Qed.

Lemma keeps_guarantee_all (params : list string) :
  (∀ table, frame_ok (GuaranteeColumns table)) →
  keeps R (guarantee_all W params).
Proof. intros Hg. induction params as [|n params IH]; simpl; keeps_tac. Qed.

Lemma keeps_collect_modelnos (generator_id : Value) (tokens : list string)
    (modelnos : list Z) :
  (∀ g n, frame_ok (GeneratorHasModel g n)) →
  keeps R (collect_modelnos W generator_id tokens modelnos).
Proof.
  intros Hg. revert modelnos.
  induction tokens as [|n tokens IH]; intros modelnos; simpl; keeps_tac.
Qed.

End Loops.

#[local] Hint Resolve keeps_help_list keeps_help_topics keeps_check_names
  keeps_guarantee_all keeps_collect_modelnos keeps_do_help : frames.

#[local] Hint Extern 1 (frame_ok _) =>
  solve [hnf; cbn; repeat split; done] : frames.

Lemma untouched_refl (s : Session) : untouched s s.
Proof. by repeat split. Qed.

Lemma untouched_trans (s1 s2 s3 : Session) :
  untouched s1 s2 → untouched s2 s3 → untouched s1 s3.
Proof.
  intros (?&?&?&?&?&?&?) (?&?&?&?&?&?&?).
  repeat split; try congruence; by etrans.
Qed.

Lemma untouched_put_all (chunks : list string) (s : Session) :
  untouched s (put_all chunks s).
Proof. repeat split; try done. by apply prefix_app_r. Qed.

Lemma untouched_record (c : Call) (s : Session) :
  untouched s (record (EvCall c) s).
Proof. repeat split; try done. by apply prefix_app_r. Qed.

#[local] Instance untouched_frame : Frame untouched :=
  {| frame_ok := λ _, True;
     frame_refl := untouched_refl;
     frame_trans := untouched_trans;
     frame_put_all := untouched_put_all;
     frame_record := λ c s _, untouched_record c s |}.

Section Handlers.

Context (W : World).

Lemma untouched_invoke (m : Method) (arg : string) :
  eval_keeps W untouched → keeps untouched (invoke W m arg).
Proof.
  intros Heval.
  destruct m; simpl;
    [ unfold dot_codebook | unfold dot_csv | unfold dot_describe
    | unfold dot_help | unfold dot_loadmodels | unfold dot_python
    | unfold dot_sql | unfold dot_trace | unfold dot_untrace ];
    keeps_tac.
Qed.

End Handlers.

(** ** Stripping *)

Lemma string_app_cons (x : ascii) (a b : string) :
  String x a +:+ b = String x (a +:+ b).
Proof. reflexivity. Qed.

Lemma string_app_nil_l (a : string) : "" +:+ a = a.
Proof. reflexivity. Qed.

Lemma string_app_assoc (a b c : string) : (a +:+ b) +:+ c = a +:+ (b +:+ c).
Proof.
  induction a as [|x a IH]; [done|]. by rewrite !string_app_cons, IH.
Qed.

Lemma string_app_nil_r (a : string) : a +:+ "" = a.
Proof. induction a as [|x a IH]; [done|]. by rewrite string_app_cons, IH. Qed.

Lemma string_app_length (a b : string) :
  String.length (a +:+ b) = String.length a + String.length b.
Proof.
  induction a as [|x a IH]; [done|]. rewrite string_app_cons. simpl.
  by rewrite IH.
Qed.

Lemma rev_app_eq (a acc : string) :
  String.rev_app a acc = String.rev a +:+ acc.
Proof.
  revert acc. induction a as [|x a IH]; intros acc; [done|].
  unfold String.rev. simpl. rewrite (IH (String x acc)), (IH (String x "")).
  by rewrite string_app_assoc.
Qed.

Lemma rev_cons (x : ascii) (a : string) :
  String.rev (String x a) = String.rev a +:+ String x "".
Proof. unfold String.rev at 1. simpl. apply rev_app_eq. Qed.

Lemma rev_app_distr (a b : string) :
  String.rev (a +:+ b) = String.rev b +:+ String.rev a.
Proof.
  induction a as [|x a IH].
  - by rewrite string_app_nil_l, string_app_nil_r.
  - by rewrite string_app_cons, !rev_cons, IH, string_app_assoc.
Qed.

Lemma rev_involutive (a : string) : String.rev (String.rev a) = a.
Proof.
  induction a as [|x a IH]; [done|].
  by rewrite rev_cons, rev_app_distr, IH.
Qed.

Lemma rev_length (a : string) : String.length (String.rev a) = String.length a.
Proof.
  induction a as [|x a IH]; [done|].
  rewrite rev_cons, string_app_length, IH. simpl. lia.
Qed.

Lemma lstrip_length (a : string) : String.length (lstrip a) ≤ String.length a.
Proof.
  induction a as [|x a IH]; simpl; [lia|]. destruct (py_isspace x); simpl; lia.
Qed.

Lemma lstrip_idem (a : string) : lstrip (lstrip a) = lstrip a.
Proof.
  induction a as [|x a IH]; [done|]. simpl.
  destruct (py_isspace x) eqn:Hx; [done|]. simpl. by rewrite Hx.
Qed.

(** What [lstrip] gives is empty or begins with a byte that is no blank. *)
Lemma lstrip_head (a : string) (x : ascii) (b : string) :
  lstrip a = String x b → py_isspace x = false.
Proof.
  induction a as [|y a IH]; [done|]. simpl.
  destruct (py_isspace y) eqn:Hy; [done|]. by intros [= <- _].
Qed.

(** Leading blanks are all that [lstrip] looks at. *)
Lemma lstrip_app (a : string) (x : ascii) (b : string) :
  py_isspace x = false →
  lstrip (a +:+ String x b) = lstrip a +:+ String x b.
Proof.
  intros Hx. induction a as [|y a IH].
  - rewrite string_app_nil_l. simpl. by rewrite Hx.
  - rewrite string_app_cons. simpl. destruct (py_isspace y); [done|].
    by rewrite string_app_cons.
Qed.

(** A stripped line is empty or begins with a byte that is no blank. *)
Lemma strip_head (a : string) (x : ascii) (b : string) :
  strip a = String x b → py_isspace x = false.
Proof.
  unfold strip, rstrip. destruct (lstrip a) as [|y u] eqn:Hu; [done|].
  pose proof (lstrip_head a y u Hu) as Hy.
  rewrite rev_cons, (lstrip_app _ y "" Hy), rev_app_distr.
  change (String.rev (String y "")) with (String y "").
  rewrite string_app_cons. by intros [= <- _].
Qed.

(** Stripping a stripped line changes nothing. *)
Lemma strip_idem (a : string) : strip (strip a) = strip a.
Proof.
  destruct (strip a) as [|x b] eqn:Ha; [done|].
  pose proof (strip_head a x b Ha) as Hx.
  assert (Hl : lstrip (String x b) = String x b) by (simpl; by rewrite Hx).
  unfold strip at 1. rewrite Hl. rewrite <- Ha.
  unfold strip, rstrip. by rewrite rev_involutive, lstrip_idem.
Qed.

(** ** The handlers at their edges *)

(** [dot_csv] and [dot_codebook] given anything but two tokens (nothing
    at all included) write their usage line and do nothing else: no
    loader is called and the object is otherwise as it was. *)
Theorem two_token_loaders_usage (W : World) (s : Session) (line : string) :
  length (split line) ≠ 2 →
  dot_csv W line s
    = (put ("Usage: .csv <table> </path/to/data.csv>" +:+ nl) s, Ret false)
  ∧ dot_codebook W line s
    = (put ("Usage: .codebook <table> </path/to/codebook.csv>" +:+ nl) s,
       Ret false).
Proof.
  intros Hlen. unfold dot_csv, dot_codebook.
  by destruct (split line) as [|a [|b [|c l]]].
Qed.

Lemma two_token_loaders_usage_witness :
  dot_csv quiet_world "t" shell0
    = (put ("Usage: .csv <table> </path/to/data.csv>" +:+ nl) shell0, Ret false)
  ∧ dot_codebook quiet_world "t" shell0
    = (put ("Usage: .codebook <table> </path/to/codebook.csv>" +:+ nl) shell0,
       Ret false).
Proof.
  apply (two_token_loaders_usage quiet_world shell0 "t").
  vm_compute. lia.
Defined.

(** [dot_loadmodels] given anything but three tokens writes its usage
    line and does nothing else. *)
Theorem loadmodels_usage (W : World) (s : Session) (line : string) :
  length (split line) ≠ 3 →
  dot_loadmodels W line s
    = (put ("Usage: .loadmodels <generator> <table> </path/to/models.pkl.gz>"
            +:+ nl) s,
       Ret false).
Proof.
  intros Hlen. unfold dot_loadmodels.
  by destruct (split line) as [|a [|b [|c [|d l]]]].
Qed.

Lemma loadmodels_usage_witness :
  dot_loadmodels quiet_world "g t" shell0
    = (put ("Usage: .loadmodels <generator> <table> </path/to/models.pkl.gz>"
            +:+ nl) shell0,
       Ret false).
Proof.
  apply (loadmodels_usage quiet_world shell0 "g t").
  vm_compute. lia.
Defined.

(** How a guarded call ends: the traceback of an [Exception] is written
    and the handler goes on to return false; a [KeyboardInterrupt] and a
    [SystemExit] leave it. *)
Lemma guarded_call (W : World) (c : Call) (s : Session) :
  (try_except (call W c ;;; ret tt) (λ tb, write tb) ;;; ret false) s
    = match ending (respond W (history s) c) with
      | Returned _ => (after_call W c s, Ret false)
      | Raised tb => (put tb (after_call W c s), Ret false)
      | Interrupted => (after_call W c s, Interrupt)
      | Exiting => (after_call W c s, SysExit)
      end.
Proof.
  unfold bind, try_except. rewrite call_eq. fold (history s).
  by destruct (ending _).
Qed.

(** [dot_python] in full: the value is written as [repr] gives it, the
    traceback of an [Exception] is written instead, and what the
    evaluated text has assigned stays in every case. *)
Lemma guarded_eval (W : World) (line : string) (s : Session) :
  dot_python W line s
    = let s1 := assigned (eval_assigns W (history s) line)
                         (after_call W (PyEval line) s) in
      match ending (respond W (history s) (PyEval line)) with
      | Returned v => (put (repr W v +:+ nl) s1, Ret false)
      | Raised tb => (put tb s1, Ret false)
      | Interrupted => (s1, Interrupt)
      | Exiting => (s1, SysExit)
      end.
Proof.
  unfold dot_python, bind, try_except, py_eval. rewrite call_eq.
  fold (history s). by destruct (ending _).
Qed.

(** The handlers whose call stands in a [try], [.sql], [.python],
    [.csv], [.codebook] and [.loadmodels], make one call at most and
    never let an [Exception] out: when the call returns or raises an
    [Exception] they return false.  They are cut short by what
    [except Exception] does not catch: a [KeyboardInterrupt] or a
    [SystemExit] raised in the call leaves them as it is. *)
Theorem guarded_handlers_contain_exceptions
    (W : World) (s : Session) (m : Method) (arg : string) :
  m ∈ [MSql; MPython; MCsv; MCodebook; MLoadmodels] →
  ((invoke W m arg s).2 = Ret false
   ∧ history (invoke W m arg s).1 = history s)
  ∨ ∃ c,
      history (invoke W m arg s).1 = history s ++ [c]
      ∧ (invoke W m arg s).2
        = match ending (respond W (history s) c) with
          | Returned _ | Raised _ => Ret false
          | Interrupted => Interrupt
          | Exiting => SysExit
          end.
Proof.
  intros Hm.
  assert (Hcall : ∀ c,
    let r := (try_except (call W c ;;; ret tt) (λ tb, write tb)
              ;;; ret false) s in
    ∃ c', history r.1 = history s ++ [c']
          ∧ r.2 = match ending (respond W (history s) c') with
                  | Returned _ | Raised _ => Ret false
                  | Interrupted => Interrupt
                  | Exiting => SysExit
                  end).
  { intros c. cbv zeta. rewrite guarded_call. exists c.
    destruct (ending _); simpl; (split; [|done]); apply history_after_call. }
  repeat (apply elem_of_cons in Hm as [->|Hm]); [..|by apply elem_of_nil in Hm];
    simpl.
  - right. apply Hcall.
  - right. exists (PyEval arg). rewrite guarded_eval. cbv zeta.
    destruct (ending _); simpl; (split; [|done]);
      apply (history_after_call W (PyEval arg) s).
  - unfold dot_csv. destruct (split arg) as [|a [|b [|c l]]];
      first [right; apply Hcall | by left].
  - unfold dot_codebook. destruct (split arg) as [|a [|b [|c l]]];
      first [right; apply Hcall | by left].
  - unfold dot_loadmodels. destruct (split arg) as [|a [|b [|c [|d l]]]];
      first [right; apply Hcall | by left].
Qed.

Lemma guarded_handlers_contain_exceptions_witness :
  ((invoke (sample_world Exiting) MPython "exit()" shell0).2 = Ret false
   ∧ history (invoke (sample_world Exiting) MPython "exit()" shell0).1
     = history shell0)
  ∨ ∃ c,
      history (invoke (sample_world Exiting) MPython "exit()" shell0).1
        = history shell0 ++ [c]
      ∧ (invoke (sample_world Exiting) MPython "exit()" shell0).2
        = match ending (respond (sample_world Exiting) (history shell0) c) with
          | Returned _ | Raised _ => Ret false
          | Interrupted => Interrupt
          | Exiting => SysExit
          end.
Proof.
  apply (guarded_handlers_contain_exceptions
           (sample_world Exiting) shell0 MPython "exit()").
  vm_compute. right. left.
Defined.

(** [dot_describe] with no token at all, or with a first token that
    casefolds to none of the kinds it knows, writes one line and makes
    no call. *)
Theorem describe_what (W : World) (s : Session) (line : string) :
  match split line with
  | [] => True
  | tok0 :: _ =>
      casefold W tok0 ∉ ["table"; "tables"; "generator"; "generators";
                         "columns"; "models"]
  end →
  dot_describe W line s
    = (put match split line with
           | [] => "Describe what, pray tell?" +:+ nl
           | tok0 :: _ =>
               "I don't know what a " +:+ repr W (VStr tok0) +:+ " is." +:+ nl
           end s,
       Ret false).
Proof.
  intros Hkind. unfold dot_describe.
  destruct (split line) as [|tok0 params]; [done|].
  repeat (case_decide as Hc;
          [ exfalso; apply Hkind; clear Hkind;
            (destruct Hc as [Hc|Hc] || idtac); rewrite Hc;
            repeat (apply elem_of_cons; first [by left | right])
          | clear Hc ]).
  done.
Qed.

Lemma describe_what_witness :
  dot_describe quiet_world "schema t" shell0
    = (put match split "schema t" with
           | [] => "Describe what, pray tell?" +:+ nl
           | tok0 :: _ =>
               "I don't know what a " +:+ repr quiet_world (VStr tok0)
               +:+ " is." +:+ nl
           end shell0,
       Ret false).
Proof.
  apply (describe_what quiet_world shell0 "schema t").
  vm_compute. intros H.
  repeat (apply elem_of_cons in H as [H|H]; [discriminate H|]).
  by apply elem_of_nil in H.
Defined.

(** ** [dot_describe] and [dot_help] on names that are not there *)

Section Names.

Context (W : World).

Lemma put_all_put (chunk : string) (chunks : list string) (s : Session) :
  put_all chunks (put chunk s) = put_all (chunk :: chunks) s.
Proof. unfold put_all, put. simpl. f_equal. by rewrite <- app_assoc. Qed.

(** The check of the names, when the collaborator answers each question
    silently and by the name alone: every name is asked about, in order,
    every unknown one is reported, and the check fails if one is
    unknown. *)
Lemma check_names_answers (known : string → bool) (has : string → Call)
    (what : string) (params : list string) (ok : bool) (s : Session) :
  (∀ h name,
     respond W h (has name) = mkOutcome [] (Returned (VBool (known name)))) →
  (check_names W has what params ok s).2 = Ret (ok && forallb known params)
  ∧ stdout (check_names W has what params ok s).1
    = stdout s ++ ((λ name, what +:+ repr W (VStr name) +:+ nl)
                     <$> filter (λ name, known name = false) params)
  ∧ history (check_names W has what params ok s).1
    = history s ++ (has <$> params).
Proof.
  intros Hans. revert ok s.
  induction params as [|n params IH]; intros ok s.
  - simpl. rewrite andb_true_r, !app_nil_r. done.
  - assert (Hstep : check_names W has what (n :: params) ok s
                    = if known n
                      then check_names W has what params ok
                             (after_call W (has n) s)
                      else check_names W has what params false
                             (put (what +:+ repr W (VStr n) +:+ nl)
                                (after_call W (has n) s))).
    { simpl. unfold bind at 1. rewrite call_eq, Hans. simpl.
      by destruct (known n). }
    rewrite Hstep. clear Hstep.
    assert (Hout1 : stdout (after_call W (has n) s) = stdout s).
    { rewrite stdout_after_call, Hans. apply app_nil_r. }
    pose proof (history_after_call W (has n) s) as Hh1.
    destruct (known n) eqn:Hn.
    + destruct (IH ok (after_call W (has n) s)) as (Hr & Hout & Hh).
      rewrite Hr, Hout, Hh, Hout1, Hh1.
      rewrite filter_cons_False by (by rewrite Hn).
      simpl. rewrite Hn. simpl. by rewrite <- app_assoc.
    + destruct (IH false (put (what +:+ repr W (VStr n) +:+ nl)
                            (after_call W (has n) s))) as (Hr & Hout & Hh).
      rewrite Hr, Hout, Hh. rewrite filter_cons_True by done.
      simpl forallb. rewrite Hn. simpl andb. rewrite andb_false_r.
      split; [done|]. split.
      * rewrite stdout_put, Hout1. simpl. by rewrite <- app_assoc.
      * change (history (put (what +:+ repr W (VStr n) +:+ nl)
                           (after_call W (has n) s)))
          with (history (after_call W (has n) s)).
        rewrite Hh1. simpl. by rewrite <- app_assoc.
Qed.

Lemma help_topics_stop (known : list string) (bad : string)
    (rest : list string) (s : Session) :
  Forall (λ n, is_Some (attrs s !! n)) known →
  attrs s !! bad = None →
  help_topics W (known ++ bad :: rest) s
    = (put ("No such command " +:+ repr W (VStr bad) +:+ "." +:+ nl)
         (put_all (topic_text (attrs s) <$> known) s),
       Ret tt).
Proof.
  revert s. induction known as [|n known IH]; intros s Hknown Hbad.
  - simpl. rewrite Hbad. unfold write, upd, put_all, put. simpl.
    by rewrite app_nil_r.
  - apply Forall_cons in Hknown as [[m Hm] Hknown].
    destruct (doc_two_lines m) as (d0 & d1 & ds & Hdoc).
    simpl. rewrite Hm, Hdoc. unfold bind, write, upd.
    rewrite (IH (put _ s)) by done. f_equal.
    unfold topic_text at 2. rewrite Hm, Hdoc. simpl tail.
    change (attrs (put ("." +:+ n +:+ " " +:+ join nl (d1 :: ds)) s))
      with (attrs s).
    by rewrite put_all_put.
Qed.

End Names.

(** [.describe table] (or [tables]) with names, one of them unknown to
    a collaborator that answers the question about a table silently and
    by its name alone: every name is asked about, in order, each unknown
    one is reported on a line of its own, and that is all.  No column is
    guaranteed and no query is made. *)
Theorem describe_missing_tables_reports_and_stops
    (W : World) (s : Session) (line tok0 : string) (params : list string)
    (known : string → bool) :
  split line = tok0 :: params →
  casefold W tok0 = "table" ∨ casefold W tok0 = "tables" →
  (∀ h t, respond W h (HasTable t) = mkOutcome [] (Returned (VBool (known t)))) →
  forallb known params = false →
  (dot_describe W line s).2 = Ret false
  ∧ stdout (dot_describe W line s).1
    = stdout s ++ ((λ t, "No such table: " +:+ repr W (VStr t) +:+ nl)
                     <$> filter (λ t, known t = false) params)
  ∧ history (dot_describe W line s).1 = history s ++ (HasTable <$> params).
Proof.
  intros Hsplit Hkind Hans Hmiss.
  destruct params as [|p params]; [done|].
  destruct (check_names_answers W known HasTable "No such table: "
              (p :: params) true s Hans) as (Hr & Hout & Hh).
  rewrite Hmiss in Hr. change (true && false) with false in Hr.
  assert (Hd : dot_describe W line s
               = ((check_names W HasTable "No such table: "
                     (p :: params) true s).1, Ret false)).
  { unfold dot_describe. rewrite Hsplit. case_decide; [|done].
    unfold bind at 1.
    destruct (check_names W HasTable "No such table: " (p :: params) true s)
      as [s1 r1]. cbn [snd] in Hr. by subst r1. }
  rewrite Hd. split; [reflexivity|]. split; [exact Hout|exact Hh].
Qed.

Lemma describe_missing_tables_witness :
  (dot_describe (catalog_world ["t"]) "tables t u v" shell0).2 = Ret false
  ∧ stdout (dot_describe (catalog_world ["t"]) "tables t u v" shell0).1
    = stdout shell0
      ++ ((λ t, "No such table: " +:+ repr (catalog_world ["t"]) (VStr t) +:+ nl)
            <$> filter (λ t, bool_decide (t ∈ ["t"]) = false) ["t"; "u"; "v"])
  ∧ history (dot_describe (catalog_world ["t"]) "tables t u v" shell0).1
    = history shell0 ++ (HasTable <$> ["t"; "u"; "v"]).
Proof.
  apply (describe_missing_tables_reports_and_stops
           (catalog_world ["t"]) shell0 "tables t u v" "tables"
           ["t"; "u"; "v"] (λ t, bool_decide (t ∈ ["t"]))).
  - reflexivity.
  - right. reflexivity.
  - intros h t. reflexivity.
  - vm_compute. reflexivity.
Defined.

(** [.describe tables] is not guarded: when its query raises, no
    traceback is written, the exception leaves the handler and the loop,
    and the session is over, with the rest of the input unread: the
    journal ends with the read of that line and the query. *)
Theorem describe_failure_ends_the_session
    (W : World) (s : Session) (rest : list ReadEvent) (tb : string) :
  attrs s !! "describe" = Some MDescribe →
  casefold W "tables" = "tables" →
  ending (respond W (history s) (ExecuteParams (describe_tables_sql "1") []))
    = Raised tb →
  ∃ s',
    cmdloop_from W (Line ".describe tables" :: rest) s = (s', Crashed tb)
    ∧ stdout s'
      = stdout s
        ++ written (respond W (history s)
                      (ExecuteParams (describe_tables_sql "1") []))
    ∧ journal s'
      = journal s
        ++ [EvRead (prompt s);
            EvCall (ExecuteParams (describe_tables_sql "1") [])].
Proof.
  intros Ha Hcf Hend.
  set (s1 := set_lastcmd ".describe tables" (record (EvRead (prompt s)) s)).
  assert (Hturn : turn W (Line ".describe tables") s
                  = dot_describe W "tables" s1).
  { assert (Hp : parseline ".describe tables"
                  = (Some ".describe", Some "tables", ".describe tables"))
      by reflexivity.
    unfold turn, bind, raw_input, onecmd, onecmd_at. rewrite Hp.
    case_decide; [done|]. unfold dispatch, bind, upd.
    case_decide; [done|]. unfold ret. case_decide; [done|].
    unfold getattr_do. case_decide; [done|]. case_decide; [|done].
    simpl. by rewrite Ha. }
  assert (Hh : history s1 = history s) by apply (history_read s).
  assert (Hd : dot_describe W "tables" s1
               = (after_call W (ExecuteParams (describe_tables_sql "1") []) s1,
                  Throw tb)).
  { assert (Hs : split "tables" = ["tables"]) by reflexivity.
    unfold dot_describe. rewrite Hs. cbv beta match.
    rewrite Hcf. case_decide as Hc; [|by destruct Hc; right].
    unfold bind. rewrite call_eq. fold (history s1). by rewrite Hh, Hend. }
  eexists. split; [|split].
  - by rewrite cmdloop_from_cons, Hturn, Hd.
  - by rewrite stdout_after_call, Hh.
  - unfold after_call, put_all, record, s1, set_lastcmd. simpl.
    by rewrite <- app_assoc.
Qed.

Lemma shell0_describe : attrs shell0 !! "describe" = Some MDescribe.
Proof. vm_compute. reflexivity. Qed.

Lemma describe_failure_witness :
  ∃ s',
    cmdloop_from (sample_world (Raised "Traceback"))
      (Line ".describe tables" :: [Line ".help"]) shell0
    = (s', Crashed "Traceback")
    ∧ stdout s'
      = stdout shell0
        ++ written (respond (sample_world (Raised "Traceback")) (history shell0)
                      (ExecuteParams (describe_tables_sql "1") []))
    ∧ journal s'
      = journal shell0
        ++ [EvRead (prompt shell0);
            EvCall (ExecuteParams (describe_tables_sql "1") [])].
Proof.
  apply (describe_failure_ends_the_session
           (sample_world (Raised "Traceback")) shell0 [Line ".help"]).
  - exact shell0_describe.
  - reflexivity.
  - reflexivity.
Defined.

(** [dot_help] with names: the usage of each is written as long as they
    are installed; at the first that is not, [No such command] is
    written and the handler returns, whatever names follow. *)
Theorem help_stops_at_the_first_unknown_name
    (W : World) (s : Session) (line bad : string) (known rest : list string) :
  split line = known ++ bad :: rest →
  Forall (λ n, is_Some (attrs s !! n)) known →
  attrs s !! bad = None →
  dot_help W line s
    = (put ("No such command " +:+ repr W (VStr bad) +:+ "." +:+ nl)
         (put_all (topic_text (attrs s) <$> known) s),
       Ret false).
Proof.
  intros Hsplit Hknown Hbad. unfold dot_help. rewrite Hsplit.
  assert (Hrun : (help_topics W (known ++ bad :: rest) ;;; ret false) s
                 = (put ("No such command " +:+ repr W (VStr bad) +:+ "." +:+ nl)
                      (put_all (topic_text (attrs s) <$> known) s),
                    Ret false)).
  { unfold bind. by rewrite (help_topics_stop W known bad rest s). }
  by destruct known.
Qed.

Lemma help_stops_witness :
  dot_help quiet_world "trace nosuch sql" shell0
    = (put ("No such command " +:+ repr quiet_world (VStr "nosuch") +:+ "." +:+ nl)
         (put_all (topic_text (attrs shell0) <$> ["trace"]) shell0),
       Ret false).
Proof.
  apply (help_stops_at_the_first_unknown_name
           quiet_world shell0 "trace nosuch sql" "nosuch" ["trace"] ["sql"]).
  - reflexivity.
  - repeat constructor. vm_compute. eauto.
  - vm_compute. reflexivity.
Defined.

(** ** [dot_describe]: the order of the questions and of the query *)

Section Order.

Context (W : World).

Lemma guarantee_all_runs (params : list string) (s : Session) :
  (∀ t, returns W (GuaranteeColumns t)) →
  (guarantee_all W params s).2 = Ret tt
  ∧ history (guarantee_all W params s).1
    = history s ++ (GuaranteeColumns <$> params).
Proof.
  intros Hret. revert s. induction params as [|t params IH]; intros s.
  - simpl. by rewrite app_nil_r.
  - assert (Hstep : guarantee_all W (t :: params) s
                    = guarantee_all W params
                        (after_call W (GuaranteeColumns t) s)).
    { simpl. unfold bind at 1. rewrite call_eq.
      destruct (Hret t (calls_of (journal s))) as [v Hv]. by rewrite Hv. }
    rewrite Hstep.
    destruct (IH (after_call W (GuaranteeColumns t) s)) as [Hr Hh].
    rewrite Hr, Hh, history_after_call. simpl. by rewrite <- app_assoc.
Qed.

(** The model numbers are taken in order, and the first token that is
    not a number, or is the number of no model, ends the collection with
    one line about it. *)
Lemma collect_modelnos_stops (gid : Value) (has : Z → bool)
    (good : list string) (ns : list Z) (bad : string) (rest : list string)
    (acc : list Z) (s : Session) :
  (∀ h n, respond W h (GeneratorHasModel gid n)
          = mkOutcome [] (Returned (VBool (has n)))) →
  py_int W <$> good = Some <$> ns →
  forallb has ns = true →
  match py_int W bad with None => True | Some n => has n = false end →
  (collect_modelnos W gid (good ++ bad :: rest) acc s).2 = Ret None
  ∧ stdout (collect_modelnos W gid (good ++ bad :: rest) acc s).1
    = stdout s
      ++ [match py_int W bad with
          | None => "Invalid model number: " +:+ bad +:+ nl
          | Some n => "No such model: " +:+ py_str W n +:+ nl
          end]
  ∧ history (collect_modelnos W gid (good ++ bad :: rest) acc s).1
    = history s ++ (GeneratorHasModel gid <$> ns)
      ++ match py_int W bad with
         | None => []
         | Some n => [GeneratorHasModel gid n]
         end.
Proof.
  intros Hans Hgood Hhas Hbad. revert ns acc s Hgood Hhas.
  induction good as [|g good IH]; intros ns acc s Hgood Hhas.
  - destruct ns; [|done].
    assert (Hstep : collect_modelnos W gid ([] ++ bad :: rest) acc s
                    = match py_int W bad with
                      | None =>
                          (put ("Invalid model number: " +:+ bad +:+ nl) s,
                           Ret None)
                      | Some n =>
                          (put ("No such model: " +:+ py_str W n +:+ nl)
                             (after_call W (GeneratorHasModel gid n) s),
                           Ret None)
                      end).
    { simpl. destruct (py_int W bad) as [n|]; [|done].
      unfold bind at 1. rewrite call_eq, Hans. simpl. by rewrite Hbad. }
    rewrite Hstep. destruct (py_int W bad) as [n|]; cbn [fst snd].
    + rewrite stdout_put, stdout_after_call, Hans. simpl.
      rewrite app_nil_r. split; [done|]. split; [done|].
      apply (history_after_call W).
    + rewrite stdout_put. simpl. by rewrite app_nil_r.
  - destruct ns as [|n ns]; [done|]. simpl in Hgood, Hhas.
    injection Hgood as Hg Hgood. apply andb_true_iff in Hhas as [Hn Hhas].
    assert (Hstep : collect_modelnos W gid ((g :: good) ++ bad :: rest) acc s
                    = collect_modelnos W gid (good ++ bad :: rest)
                        (acc ++ [n])
                        (after_call W (GeneratorHasModel gid n) s)).
    { simpl. rewrite Hg. unfold bind at 1. rewrite call_eq, Hans. simpl.
      by rewrite Hn. }
    rewrite Hstep.
    destruct (IH ns (acc ++ [n]) (after_call W (GeneratorHasModel gid n) s)
                Hgood Hhas) as (Hr & Hout & Hh).
    rewrite Hr, Hout, Hh, history_after_call, stdout_after_call, Hans.
    simpl. rewrite app_nil_r. split; [done|]. split; [done|].
    by rewrite <- app_assoc.
Qed.

End Order.

(** [.describe table] (or [tables]) with names that are all known, to a
    collaborator that answers the question about a table silently and
    from which the guarantee of the columns returns: all the names are
    asked about first, then the columns of all are guaranteed, and only
    then the one query is made, with the names as its parameters.  The
    query is not guarded: the handler ends as the query does. *)
Theorem describe_tables_asks_guarantees_then_queries
    (W : World) (s : Session) (line tok0 : string) (params : list string)
    (known : string → bool) :
  split line = tok0 :: params →
  params ≠ [] →
  casefold W tok0 = "table" ∨ casefold W tok0 = "tables" →
  (∀ h t, respond W h (HasTable t) = mkOutcome [] (Returned (VBool (known t)))) →
  (∀ t, returns W (GuaranteeColumns t)) →
  forallb known params = true →
  let query := ExecuteParams (describe_tables_sql (any_of "tabname = ?" params))
                             (VStr <$> params) in
  let asked := history s ++ (HasTable <$> params)
               ++ (GuaranteeColumns <$> params) in
  history (dot_describe W line s).1 = asked ++ [query]
  ∧ (dot_describe W line s).2
    = match ending (respond W asked query) with
      | Returned _ => Ret false
      | Raised tb => Throw tb
      | Interrupted => Interrupt
      | Exiting => SysExit
      end.
Proof.
  intros Hsplit Hne Hkind Hans Hret Hall query asked.
  destruct params as [|p params]; [done|].
  destruct (check_names_answers W known HasTable "No such table: "
              (p :: params) true s Hans) as (Hr & _ & Hh).
  rewrite Hall in Hr. change (true && true) with true in Hr.
  set (s1 := (check_names W HasTable "No such table: " (p :: params) true s).1)
    in *.
  destruct (guarantee_all_runs W (p :: params) s1 Hret) as [Hg Hgh].
  set (s2 := (guarantee_all W (p :: params) s1).1) in *.
  assert (Hasked : history s2 = asked).
  { rewrite Hgh, Hh. unfold asked. by rewrite <- app_assoc. }
  assert (Hd : dot_describe W line s
               = (after_call W query s2,
                  match ending (respond W (history s2) query) with
                  | Returned _ => Ret false
                  | Raised tb => Throw tb
                  | Interrupted => Interrupt
                  | Exiting => SysExit
                  end)).
  { unfold dot_describe. rewrite Hsplit. case_decide; [|done].
    unfold bind at 1. unfold s2, s1 in *.
    destruct (check_names W HasTable "No such table: " (p :: params) true s)
      as [t1 r1]. cbn [fst snd] in *. subst r1.
    unfold bind at 1.
    destruct (guarantee_all W (p :: params) t1) as [t2 r2].
    cbn [fst snd] in *. subst r2.
    unfold bind. rewrite call_eq. fold (history t2). fold query.
    by destruct (ending (respond W (history t2) query)). }
  rewrite Hd. cbn [fst snd]. rewrite history_after_call, Hasked. done.
Qed.

Lemma describe_tables_order_witness :
  let W := catalog_world ["t"; "u"] in
  let query := ExecuteParams
                 (describe_tables_sql (any_of "tabname = ?" ["t"; "u"]))
                 (VStr <$> ["t"; "u"]) in
  let asked := history shell0 ++ (HasTable <$> ["t"; "u"])
               ++ (GuaranteeColumns <$> ["t"; "u"]) in
  history (dot_describe W "tables t u" shell0).1 = asked ++ [query]
  ∧ (dot_describe W "tables t u" shell0).2
    = match ending (respond W asked query) with
      | Returned _ => Ret false
      | Raised tb => Throw tb
      | Interrupted => Interrupt
      | Exiting => SysExit
      end.
Proof.
  apply (describe_tables_asks_guarantees_then_queries
           (catalog_world ["t"; "u"]) shell0 "tables t u" "tables" ["t"; "u"]
           (λ t, bool_decide (t ∈ ["t"; "u"]))).
  - reflexivity.
  - discriminate.
  - right. reflexivity.
  - intros h t. reflexivity.
  - intros t h. eexists. reflexivity.
  - vm_compute. reflexivity.
Defined.

(** [.describe generator] (or [generators]) with names, to a
    collaborator that answers the question about a generator silently
    and by its name alone: every name is asked about, in order, and the
    query follows exactly when all of them are known; when one is not,
    each unknown name is reported on a line of its own and the handler
    returns. *)
Theorem describe_generators_queries_only_known_names
    (W : World) (s : Session) (line tok0 : string) (params : list string)
    (known : string → bool) :
  split line = tok0 :: params →
  params ≠ [] →
  casefold W tok0 = "generator" ∨ casefold W tok0 = "generators" →
  (∀ h g, respond W h (HasGenerator g)
          = mkOutcome [] (Returned (VBool (known g)))) →
  history (dot_describe W line s).1
    = history s ++ (HasGenerator <$> params)
      ++ (if forallb known params
          then [ExecuteParams
                  (describe_generators_sql (any_of "name = ?" params))
                  (VStr <$> params)]
          else [])
  ∧ (forallb known params = false →
     (dot_describe W line s).2 = Ret false
     ∧ stdout (dot_describe W line s).1
       = stdout s ++ ((λ g, "No such generator: " +:+ repr W (VStr g) +:+ nl)
                        <$> filter (λ g, known g = false) params)).
Proof.
  intros Hsplit Hne Hkind Hans.
  destruct params as [|p params]; [done|].
  destruct (check_names_answers W known HasGenerator "No such generator: "
              (p :: params) true s Hans) as (Hr & Hout & Hh).
  change (true && forallb known (p :: params))
    with (forallb known (p :: params)) in Hr.
  set (query := ExecuteParams
                  (describe_generators_sql (any_of "name = ?" (p :: params)))
                  (VStr <$> p :: params)).
  set (s1 := (check_names W HasGenerator "No such generator: "
                (p :: params) true s).1) in *.
  assert (Hd : dot_describe W line s
               = if forallb known (p :: params)
                 then (after_call W query s1,
                       match ending (respond W (history s1) query) with
                       | Returned _ => Ret false
                       | Raised tb => Throw tb
                       | Interrupted => Interrupt
                       | Exiting => SysExit
                       end)
                 else (s1, Ret false)).
  { unfold dot_describe. rewrite Hsplit.
    case_decide as Hc.
    { by destruct Hkind as [Hk|Hk], Hc as [Hc|Hc]; rewrite Hk in Hc. }
    case_decide; [|done].
    unfold bind at 1. unfold s1 in *.
    destruct (check_names W HasGenerator "No such generator: "
                (p :: params) true s) as [t1 r1].
    cbn [fst snd] in *. subst r1.
    destruct (forallb known (p :: params)); [|done].
    unfold bind. rewrite call_eq. fold (history t1). fold query.
    by destruct (ending (respond W (history t1) query)). }
  rewrite Hd. destruct (forallb known (p :: params)); cbn [fst snd].
  - split; [|done]. by rewrite history_after_call, Hh, <- app_assoc.
  - split; [by rewrite Hh, app_nil_r|]. intros _. by split.
Qed.

Lemma describe_generators_witness :
  let W := generators_world ["g"] [] in
  history (dot_describe W "generators g h" shell0).1
    = history shell0 ++ (HasGenerator <$> ["g"; "h"])
      ++ (if forallb (λ g, bool_decide (g ∈ ["g"])) ["g"; "h"]
          then [ExecuteParams
                  (describe_generators_sql (any_of "name = ?" ["g"; "h"]))
                  (VStr <$> ["g"; "h"])]
          else [])
  ∧ (forallb (λ g, bool_decide (g ∈ ["g"])) ["g"; "h"] = false →
     (dot_describe W "generators g h" shell0).2 = Ret false
     ∧ stdout (dot_describe W "generators g h" shell0).1
       = stdout shell0
         ++ ((λ g, "No such generator: " +:+ repr W (VStr g) +:+ nl)
               <$> filter (λ g, bool_decide (g ∈ ["g"]) = false) ["g"; "h"])).
Proof.
  apply (describe_generators_queries_only_known_names
           (generators_world ["g"] []) shell0 "generators g h" "generators"
           ["g"; "h"] (λ g, bool_decide (g ∈ ["g"]))).
  - reflexivity.
  - discriminate.
  - right. reflexivity.
  - intros h g. reflexivity.
Defined.

(** [.describe models <generator> <numbers>] for a known generator, to
    a collaborator that answers silently: the numbers are checked in
    order, and at the first token that [int] refuses, or that is the
    number of no model of the generator, one line says so and the
    handler returns.  The tokens after it are not looked at and the
    models are not queried. *)
Theorem describe_models_stops_at_the_first_bad_number
    (W : World) (s : Session) (line tok0 generator bad : string)
    (good rest : list string) (ns : list Z) (gid : Value) (has : Z → bool) :
  split line = tok0 :: generator :: good ++ bad :: rest →
  casefold W tok0 = "models" →
  (∀ h, respond W h (HasGenerator generator)
        = mkOutcome [] (Returned (VBool true))) →
  (∀ h, respond W h (GetGenerator generator) = mkOutcome [] (Returned gid)) →
  (∀ h n, respond W h (GeneratorHasModel gid n)
          = mkOutcome [] (Returned (VBool (has n)))) →
  py_int W <$> good = Some <$> ns →
  forallb has ns = true →
  match py_int W bad with None => True | Some n => has n = false end →
  (dot_describe W line s).2 = Ret false
  ∧ stdout (dot_describe W line s).1
    = stdout s
      ++ [match py_int W bad with
          | None => "Invalid model number: " +:+ bad +:+ nl
          | Some n => "No such model: " +:+ py_str W n +:+ nl
          end]
  ∧ history (dot_describe W line s).1
    = history s ++ [HasGenerator generator; GetGenerator generator]
      ++ (GeneratorHasModel gid <$> ns)
      ++ match py_int W bad with
         | None => []
         | Some n => [GeneratorHasModel gid n]
         end.
Proof.
  intros Hsplit Hkind Hgen Hget Hans Hgood Hhas Hbad.
  set (s1 := after_call W (HasGenerator generator) s).
  set (s2 := after_call W (GetGenerator generator) s1).
  destruct (collect_modelnos_stops W gid has good ns bad rest [] s2
              Hans Hgood Hhas Hbad) as (Hr & Hout & Hh).
  assert (Hd : dot_describe W line s
               = ((collect_modelnos W gid (good ++ bad :: rest) [] s2).1,
                  Ret false)).
  { unfold dot_describe. rewrite Hsplit, Hkind.
    case_decide as Hc; [by destruct Hc|].
    case_decide as Hc'; [by destruct Hc'|].
    case_decide; [done|]. case_decide; [|done].
    unfold bind at 1. rewrite call_eq, Hgen. fold s1. cbn [ending truthy].
    unfold bind at 1. rewrite call_eq, Hget. fold s2. cbn [ending].
    assert (Hnum : good ++ bad :: rest ≠ []) by by destruct good.
    destruct (good ++ bad :: rest) as [|tok toks] eqn:Htoks; [done|].
    unfold bind at 1. unfold bind at 1.
    destruct (collect_modelnos W gid (tok :: toks) [] s2) as [t3 r3].
    cbn [fst snd] in *. by subst r3. }
  rewrite Hd. cbn [fst snd]. split; [done|]. split.
  - rewrite Hout. unfold s2, s1. by rewrite !stdout_after_call, Hgen, Hget,
      !app_nil_r.
  - rewrite Hh. unfold s2, s1. rewrite !history_after_call.
    by rewrite <- !app_assoc.
Qed.

Lemma describe_models_witness :
  let W := generators_world ["g"] [1%Z; 2%Z] in
  (dot_describe W "models g 1 2 3 x" shell0).2 = Ret false
  ∧ stdout (dot_describe W "models g 1 2 3 x" shell0).1
    = stdout shell0
      ++ [match py_int W "3" with
          | None => "Invalid model number: " +:+ "3" +:+ nl
          | Some n => "No such model: " +:+ py_str W n +:+ nl
          end]
  ∧ history (dot_describe W "models g 1 2 3 x" shell0).1
    = history shell0 ++ [HasGenerator "g"; GetGenerator "g"]
      ++ (GeneratorHasModel (VInt 7) <$> [1%Z; 2%Z])
      ++ match py_int W "3" with
         | None => []
         | Some n => [GeneratorHasModel (VInt 7) n]
         end.
Proof.
  apply (describe_models_stops_at_the_first_bad_number
           (generators_world ["g"] [1%Z; 2%Z]) shell0 "models g 1 2 3 x"
           "models" "g" "3" ["1"; "2"] ["x"] [1%Z; 2%Z] (VInt 7)
           (λ n, bool_decide (n ∈ [1%Z; 2%Z]))).
  - reflexivity.
  - reflexivity.
  - intros h. reflexivity.
  - intros h. reflexivity.
  - intros h n. reflexivity.
  - reflexivity.
  - vm_compute. reflexivity.
  - vm_compute. reflexivity.
Defined.

(** ** Frames through the dispatch and the loop *)

Section Dispatching.

Context (W : World) (R : relation Session) `{!Frame R}.

Hypothesis R_lastcmd : ∀ l s, R s (set_lastcmd l s).
Hypothesis R_read : ∀ p s, R s (record (EvRead p) s).
Hypothesis R_default : ∀ line, keeps R (default W line).
Hypothesis R_invoke : ∀ m arg, keeps R (invoke W m arg).

Lemma keeps_dispatch (cmd : option string) (arg line : string) :
  keeps R (dispatch W cmd arg line).
Proof using Type*. unfold dispatch. keeps_tac. Qed.

Lemma keeps_onecmd_at (depth : nat) (line : string) :
  keeps R (onecmd_at W depth line).
Proof using Type*.
  pose proof keeps_dispatch as Hd.
  revert line. induction depth as [|depth IH]; intros line; simpl;
    destruct (parseline line) as [[cmd arg] line']; keeps_tac.
Qed.

Lemma keeps_onecmd (line : string) : keeps R (onecmd W line).
Proof using Type*. apply keeps_onecmd_at. Qed.

Lemma keeps_turn (ev : ReadEvent) : keeps R (turn W ev).
Proof using Type*.
  intros s. unfold turn, bind, raw_input.
  destruct ev; [| |apply R_read].
  - eapply frame_trans; [apply R_read|apply keeps_onecmd].
  - eapply frame_trans; [apply R_read|apply keeps_onecmd].
Qed.

Lemma keeps_cmdloop_from (input : list ReadEvent) (s : Session) :
  R s (cmdloop_from W input s).1.
Proof using Type*.
  revert s. induction input as [|ev input IH]; intros s; [apply frame_refl|].
  rewrite cmdloop_from_cons. pose proof (keeps_turn ev s) as Ht.
  destruct (turn W ev s) as [s' [[|]|tb| |]]; simpl in Ht; [done| |done| |done].
  - eapply frame_trans; [exact Ht|apply IH].
  - eapply frame_trans; [exact Ht|].
    eapply frame_trans; [apply (frame_put R)|apply IH].
Qed.

Lemma keeps_cmdloop (input : list ReadEvent) (s : Session) :
  R s (cmdloop W input s).1.
Proof using Type*.
  unfold cmdloop.
  eapply frame_trans; [apply (frame_put R)|].
  eapply frame_trans; [apply (frame_put R)|apply keeps_cmdloop_from].
Qed.

End Dispatching.

(** A property that the constructed object has, and that every
    operation carries, holds in every reachable state. *)
Lemma reachable_carries (W : World) (P : Session → Prop)
    `{!Frame (carries P)} :
  (∀ s, Shell_init = Some s → P s) →
  (∀ l s, P s → P (set_lastcmd l s)) →
  (∀ p s, P s → P (record (EvRead p) s)) →
  (∀ line, keeps (carries P) (default W line)) →
  (∀ m arg, keeps (carries P) (invoke W m arg)) →
  ∀ s, reachable W s → P s.
Proof.
  intros Hinit Hlast Hread Hdefault Hinvoke s.
  induction 1 as [s Hs|s chunk _ IH|s ev _ IH|s line _ IH|s line _ IH
                 |s m arg _ IH|s arg _ IH].
  - by apply Hinit.
  - by apply (frame_put (carries P)).
  - by apply (keeps_turn W (carries P) Hlast Hread Hdefault Hinvoke).
  - by apply (keeps_onecmd W (carries P) Hlast Hread Hdefault Hinvoke).
  - by apply Hdefault.
  - by apply Hinvoke.
  - by apply (keeps_do_help (carries P)).
Qed.

(** ** The registry after construction *)

Lemma registry_kept_refl (s : Session) : registry_kept s s.
Proof. by repeat split. Qed.

Lemma registry_kept_trans (s1 s2 s3 : Session) :
  registry_kept s1 s2 → registry_kept s2 s3 → registry_kept s1 s3.
Proof.
  intros (?&?&?&?) (?&?&?&?). repeat split; try congruence; by etrans.
Qed.

Lemma registry_kept_put_all (chunks : list string) (s : Session) :
  registry_kept s (put_all chunks s).
Proof. repeat split; try done. by apply prefix_app_r. Qed.

Lemma registry_kept_record (e : Event) (s : Session) :
  registry_kept s (record e s).
Proof. repeat split; try done. by apply prefix_app_r. Qed.

#[local] Instance registry_kept_frame : Frame registry_kept :=
  {| frame_ok := λ _, True;
     frame_refl := registry_kept_refl;
     frame_trans := registry_kept_trans;
     frame_put_all := registry_kept_put_all;
     frame_record := λ c s _, registry_kept_record (EvCall c) s |}.

#[local] Hint Resolve registry_kept_record registry_kept_refl : frames.

Lemma registry_kept_default (W : World) (line : string) :
  keeps registry_kept (default W line).
Proof. unfold default. keeps_tac. Qed.

Lemma registry_kept_invoke (W : World) (m : Method) (arg : string) :
  eval_keeps W registry_kept → keeps registry_kept (invoke W m arg).
Proof.
  intros Heval.
  destruct m; simpl;
    [ unfold dot_codebook | unfold dot_csv | unfold dot_describe
    | unfold dot_help | unfold dot_loadmodels | unfold dot_python
    | unfold dot_sql | unfold dot_trace | unfold dot_untrace ];
    keeps_tac.
Qed.

(** Once the shell is constructed its own code installs and removes no
    command.  So as long as the text that [.python] evaluates assigns
    neither [_cmds] nor an attribute of a command, after any run of
    [Shell.cmdloop], however it ends, the set of command names and the
    installed methods are what they were.  The run has only added to
    the output, its two lines of welcome first, and to the journal. *)
Theorem registry_is_fixed_after_construction
    (W : World) (input : list ReadEvent) (s : Session) :
  eval_keeps W registry_kept →
  cmds (cmdloop W input s).1 = cmds s
  ∧ attrs (cmdloop W input s).1 = attrs s
  ∧ stdout s ++ [ "Welcome to the Bayeslite shell." +:+ nl;
                  "Type `.help' for help." +:+ nl ]
      `prefix_of` stdout (cmdloop W input s).1
  ∧ journal s `prefix_of` journal (cmdloop W input s).1.
Proof.
  intros Heval.
  assert (Hloop : ∀ s0, registry_kept s0 (cmdloop_from W input s0).1).
  { intros s0. apply keeps_cmdloop_from; [apply _|..].
    - by intros l s1.
    - intros p s1. apply registry_kept_record.
    - apply registry_kept_default.
    - intros m arg. by apply registry_kept_invoke. }
  unfold cmdloop.
  set (s0 := put _ (put _ s)).
  destruct (Hloop s0) as (Hc & Ha & Hout & Hj).
  split; [done|]. split; [done|]. split; [|done].
  etrans; [|exact Hout]. subst s0. simpl. by rewrite <- app_assoc.
Qed.

Lemma registry_is_fixed_witness :
  cmds (cmdloop quiet_world [Line ".python 1"; Line "select 1;"] shell0).1
    = cmds shell0
  ∧ attrs (cmdloop quiet_world [Line ".python 1"; Line "select 1;"] shell0).1
    = attrs shell0
  ∧ stdout shell0 ++ [ "Welcome to the Bayeslite shell." +:+ nl;
                       "Type `.help' for help." +:+ nl ]
      `prefix_of`
        stdout (cmdloop quiet_world [Line ".python 1"; Line "select 1;"]
                  shell0).1
  ∧ journal shell0
      `prefix_of`
        journal (cmdloop quiet_world [Line ".python 1"; Line "select 1;"]
                   shell0).1.
Proof.
  apply (registry_is_fixed_after_construction
           quiet_world [Line ".python 1"; Line "select 1;"] shell0).
  intros h text s. repeat split; reflexivity.
Defined.

(** ** Meta-commands in the middle of a statement *)

(** A line that names a command has something on it. *)
Lemma parseline_some (raw cmd line : string) (arg : option string) :
  parseline raw = (Some cmd, arg, line) → line ≠ "".
Proof.
  unfold parseline. destruct (strip raw) as [|c rest]; [done|].
  case_decide; [done|]. case_decide.
  - destruct (span_ident ("help " +:+ rest)). by intros [= _ _ <-].
  - destruct (span_ident (String c rest)). by intros [= _ _ <-].
Qed.

(** The turn of a line that names a [do_] attribute is the call of that
    attribute on the argument, the line being the last command. *)
Lemma turn_bound (W : World) (s : Session) (raw cmd line : string)
    (arg : option string) (f : Func) :
  parseline raw = (Some cmd, arg, line) →
  getattr_do cmd s = Some f →
  let s1 := set_lastcmd line (record (EvRead (prompt s)) s) in
  turn W (Line raw) s
    = match f with
      | Builtin_help => do_help W (from_option id "" arg) s1
      | Bound m => invoke W m (from_option id "" arg) s1
      end.
Proof.
  intros Hp Hf s1. pose proof (parseline_some raw cmd line arg Hp) as Hne.
  assert (Hcmd : cmd ≠ "" ∧ line ≠ "EOF").
  { split; [by intros ->|]. intros ->.
    unfold parseline in Hp. destruct (strip raw) as [|c rest] eqn:Hs; [done|].
    case_decide; [done|]. case_decide as Hq.
    - subst c. destruct (span_ident ("help " +:+ rest)); simplify_eq.
    - destruct (span_ident (String c rest)) as [cmd' tail] eqn:Hspan.
      simplify_eq. by vm_compute in Hspan; simplify_eq. }
  destruct Hcmd as [Hcmd Heof].
  unfold turn, bind, raw_input, onecmd, onecmd_at. rewrite Hp.
  case_decide; [done|]. unfold dispatch, bind, upd.
  case_decide; [done|]. unfold ret. case_decide; [done|].
  assert (Hg : getattr_do cmd (set_lastcmd line (record (EvRead (prompt s)) s))
               = Some f) by exact Hf.
  by rewrite Hg.
Qed.

(** A line that names a [do_] attribute (an installed command, or the
    [help] of [cmd.Cmd]) is answered by code of the shell that does not
    touch the statement in progress.  So as long as the text that
    [.python] evaluates assigns nothing of the statement, the dispatch
    or the registry, the pending buffer and the prompt are as before
    such a line, whatever command it names and however the command
    ends. *)
Theorem meta_command_leaves_the_statement_alone
    (W : World) (s : Session) (raw cmd line : string) (arg : option string)
    (f : Func) :
  eval_keeps W untouched →
  parseline raw = (Some cmd, arg, line) →
  getattr_do cmd s = Some f →
  bql (turn W (Line raw) s).1 = bql s
  ∧ prompt (turn W (Line raw) s).1 = prompt s
  ∧ lastcmd (turn W (Line raw) s).1 = line
  ∧ history s `prefix_of` history (turn W (Line raw) s).1.
Proof.
  intros Heval Hp Hf.
  set (s1 := set_lastcmd line (record (EvRead (prompt s)) s)).
  rewrite (turn_bound W s raw cmd line arg f Hp Hf). cbv zeta. fold s1.
  assert (Hu : untouched s1 match f with
                            | Builtin_help =>
                                do_help W (from_option id "" arg) s1
                            | Bound m => invoke W m (from_option id "" arg) s1
                            end.1).
  { destruct f; [apply (keeps_do_help untouched)|by apply untouched_invoke]. }
  destruct Hu as (Hb & Hpr & Hl & _ & _ & _ & Hj).
  split; [done|]. split; [done|]. split; [done|].
  destruct Hj as [k Hk]. unfold history. rewrite Hk. simpl.
  rewrite !calls_of_app. simpl. rewrite app_nil_r. by apply prefix_app_r.
Qed.

Lemma meta_command_witness :
  bql (turn quiet_world (Line ".python 1") mid_statement).1 = bql mid_statement
  ∧ prompt (turn quiet_world (Line ".python 1") mid_statement).1
    = prompt mid_statement
  ∧ lastcmd (turn quiet_world (Line ".python 1") mid_statement).1
    = ".python 1"
  ∧ history mid_statement
      `prefix_of` history (turn quiet_world (Line ".python 1") mid_statement).1.
Proof.
  apply (meta_command_leaves_the_statement_alone
           quiet_world mid_statement ".python 1" ".python" ".python 1"
           (Some "1") (Bound MPython)).
  - intros h text s. repeat split; reflexivity.
  - reflexivity.
  - vm_compute. reflexivity.
Defined.

(** ** The continuation prompt *)

Lemma settled_refl (s : Session) : carries settled s s.
Proof. by intros H. Qed.

Lemma settled_trans (s1 s2 s3 : Session) :
  carries settled s1 s2 → carries settled s2 s3 → carries settled s1 s3.
Proof. intros H12 H23 H. by apply H23, H12. Qed.

Lemma settled_same (s s' : Session) :
  bql s' = bql s → prompt s' = prompt s → carries settled s s'.
Proof.
  intros Hb Hp [H1|[H1 H2]]; [left|right; split]; congruence.
Qed.

#[local] Instance settled_frame : Frame (carries settled) :=
  {| frame_ok := λ _, True;
     frame_refl := settled_refl;
     frame_trans := settled_trans;
     frame_put_all := λ chunks s, settled_same s (put_all chunks s) eq_refl eq_refl;
     frame_record := λ c s _,
       settled_same s (record (EvCall c) s) eq_refl eq_refl |}.

Lemma settled_default (W : World) (line : string) :
  keeps (carries settled) (default W line).
Proof.
  intros s Hs. destruct (decide (line = "EOF")) as [->|Hne].
  { rewrite default_EOF. by apply (settled_same s). }
  pose proof (default_cut W line s Hne) as Hcut. cbv zeta in Hcut.
  destruct (bql_string_complete_p W (history s) ((bql s +:+ line) +:+ nl))
    as [[|]|tb| |] eqn:Hc.
  - rewrite (default_complete W line s Hne Hc). cbv zeta.
    left. by destruct (ending _).
  - rewrite (default_incomplete W line s Hne Hc).
    right. split; [apply app_nl_nonempty|done].
  - rewrite Hcut. destruct Hs as [Hp|[Hb Hp]]; [by left|right].
    split; [apply app_nl_nonempty|done].
  - rewrite Hcut. destruct Hs as [Hp|[Hb Hp]]; [by left|right].
    split; [apply app_nl_nonempty|done].
  - rewrite Hcut. destruct Hs as [Hp|[Hb Hp]]; [by left|right].
    split; [apply app_nl_nonempty|done].
Qed.



(** ** Whole lines *)

Lemma whole_lines_refl (s : Session) : carries whole_lines s s.
Proof. by intros H. Qed.

Lemma whole_lines_trans (s1 s2 s3 : Session) :
  carries whole_lines s1 s2 → carries whole_lines s2 s3 →
  carries whole_lines s1 s3.
Proof. intros H12 H23 H. by apply H23, H12. Qed.

Lemma whole_lines_same (s s' : Session) :
  history s' = history s → carries whole_lines s s'.
Proof. unfold carries, whole_lines. by intros ->. Qed.

Lemma whole_lines_record (c : Call) (s : Session) :
  (∀ text, c ≠ Execute text) → carries whole_lines s (record (EvCall c) s).
Proof.
  intros Hc H. unfold whole_lines, history. simpl. rewrite calls_of_app. simpl.
  apply Forall_app. split; [done|]. constructor; [|constructor].
  intros text ->. by destruct (Hc text).
Qed.

#[local] Instance whole_lines_frame : Frame (carries whole_lines) :=
  {| frame_ok := λ c, ∀ text, c ≠ Execute text;
     frame_refl := whole_lines_refl;
     frame_trans := whole_lines_trans;
     frame_put_all := λ chunks s,
       whole_lines_same s (put_all chunks s) eq_refl;
     frame_record := whole_lines_record |}.

Lemma whole_lines_default (W : World) (line : string) :
  keeps (carries whole_lines) (default W line).
Proof.
  intros s H. destruct (decide (line = "EOF")) as [->|Hne].
  { rewrite default_EOF. done. }
  pose proof (default_cut W line s Hne) as Hcut. cbv zeta in Hcut.
  destruct (bql_string_complete_p W (history s) ((bql s +:+ line) +:+ nl))
    as [[|]|tb| |] eqn:Hc.
  - rewrite (default_complete W line s Hne Hc). cbv zeta.
    assert (Hh : whole_lines (after_call W (Execute ((bql s +:+ line) +:+ nl))
                                (cleared s))).
    { unfold whole_lines. rewrite history_after_call, history_cleared.
      apply Forall_app. split; [done|]. constructor; [|constructor].
      intros text [= <-]. by eexists. }
    by destruct (ending _).
  - by rewrite (default_incomplete W line s Hne Hc).
  - by rewrite Hcut.
  - by rewrite Hcut.
  - by rewrite Hcut.
Qed.

(** What evaluated text assigns is no call. *)
Lemma whole_lines_eval (W : World) : eval_keeps W (carries whole_lines).
Proof. intros h text s H. exact H. Qed.

Lemma whole_lines_invoke (W : World) (m : Method) (arg : string) :
  keeps (carries whole_lines) (invoke W m arg).
Proof.
  pose proof (whole_lines_eval W) as Heval.
  destruct m; simpl;
    [ unfold dot_codebook | unfold dot_csv | unfold dot_describe
    | unfold dot_help | unfold dot_loadmodels | unfold dot_python
    | unfold dot_sql | unfold dot_trace | unfold dot_untrace ];
    keeps_tac.
Qed.



(** ** The trace flags and the subscriptions *)

Lemma subscribed_snoc (t : Tracer) (h : list Call) (c : Call) :
  subscribed t (h ++ [c]) = toggles t c (subscribed t h).
Proof. unfold subscribed. by rewrite foldl_snoc. Qed.

Lemma in_sync_refl (t : Tracer) (s : Session) : carries (in_sync t) s s.
Proof. by intros H. Qed.

Lemma in_sync_trans (t : Tracer) (s1 s2 s3 : Session) :
  carries (in_sync t) s1 s2 → carries (in_sync t) s2 s3 →
  carries (in_sync t) s1 s3.
Proof. intros H12 H23 H. by apply H23, H12. Qed.

Lemma in_sync_same (t : Tracer) (s s' : Session) :
  tracing t s' = tracing t s → history s' = history s →
  carries (in_sync t) s s'.
Proof. unfold carries, in_sync. intros -> ->. done. Qed.

Lemma in_sync_record (t : Tracer) (c : Call) (s : Session) :
  (∀ b, toggles t c b = b) → carries (in_sync t) s (record (EvCall c) s).
Proof.
  intros Hc Hs. unfold in_sync.
  assert (Hh : history (record (EvCall c) s) = history s ++ [c]).
  { unfold history. simpl. by rewrite calls_of_app. }
  rewrite Hh, subscribed_snoc, Hc. by destruct t.
Qed.

#[local] Instance in_sync_frame (t : Tracer) : Frame (carries (in_sync t)) :=
  {| frame_ok := λ c, ∀ b, toggles t c b = b;
     frame_refl := in_sync_refl t;
     frame_trans := in_sync_trans t;
     frame_put_all := λ chunks s,
       in_sync_same t s (put_all chunks s)
         match t with Bql => eq_refl | Sql => eq_refl end eq_refl;
     frame_record := in_sync_record t |}.

Lemma in_sync_cleared (t : Tracer) (s : Session) :
  carries (in_sync t) s (record EvClear (set_bql "" s)).
Proof.
  apply in_sync_same; [by destruct t|].
  unfold history. simpl. rewrite calls_of_app. simpl. apply app_nil_r.
Qed.

#[local] Hint Resolve in_sync_cleared : frames.

Lemma in_sync_default (W : World) (t : Tracer) (line : string) :
  keeps (carries (in_sync t)) (default W line).
Proof. destruct t; unfold default; keeps_tac. Qed.

Lemma in_sync_dot_trace (W : World) (t : Tracer) (arg : string) :
  returns W (subscribe t) →
  keeps (carries (in_sync t)) (dot_trace W arg).
Proof.
  intros subscribe_returns.
  destruct (decide (arg = tracer_arg t)) as [->|Hne].
  - intros s Hs. destruct (tracing t s) eqn:Hf.
    + by rewrite dot_trace_again.
    + destruct (subscribe_returns (history s)) as [v Hv].
      rewrite (dot_trace_fresh W t s v Hf Hv). unfold in_sync in *.
      transitivity true; [by destruct t|].
      transitivity (subscribed t (history (after_call W (subscribe t) s)));
        [|by destruct t].
      rewrite history_after_call, subscribed_snoc. by destruct t.
  - clear subscribe_returns.
    destruct t; simpl in Hne; unfold dot_trace;
      repeat case_decide; try done; keeps_tac.
Qed.

Lemma in_sync_dot_untrace (W : World) (t : Tracer) (arg : string) :
  returns W (unsubscribe t) →
  keeps (carries (in_sync t)) (dot_untrace W arg).
Proof.
  intros unsubscribe_returns.
  destruct (decide (arg = tracer_arg t)) as [->|Hne].
  - intros s Hs. destruct (tracing t s) eqn:Hf.
    + destruct (unsubscribe_returns (history s)) as [v Hv].
      rewrite (dot_untrace_set W t s v Hf Hv). unfold in_sync in *.
      transitivity false; [by destruct t|].
      transitivity (subscribed t (history (after_call W (unsubscribe t) s)));
        [|by destruct t].
      rewrite history_after_call, subscribed_snoc. by destruct t.
    + by rewrite dot_untrace_again.
  - clear unsubscribe_returns.
    destruct t; simpl in Hne; unfold dot_untrace;
      repeat case_decide; try done; keeps_tac.
Qed.

(** Evaluated text that leaves the flags alone leaves them in step with
    the calls: what it assigns is no call. *)
Lemma in_sync_eval (W : World) (t : Tracer) :
  eval_keeps W flags_kept → eval_keeps W (carries (in_sync t)).
Proof.
  intros Hflags h text s. destruct (Hflags h text s) as [H1 H2].
  apply in_sync_same; [by destruct t|done].
Qed.

Lemma in_sync_invoke (W : World) (t : Tracer) (m : Method) (arg : string) :
  eval_keeps W flags_kept →
  returns W (subscribe t) →
  returns W (unsubscribe t) →
  keeps (carries (in_sync t)) (invoke W m arg).
Proof.
  intros Heval%(in_sync_eval W t) Hsub Hunsub.
  destruct m; simpl;
    try (by apply in_sync_dot_trace); try (by apply in_sync_dot_untrace);
    clear Hsub Hunsub; destruct t;
    [ unfold dot_codebook | unfold dot_codebook
    | unfold dot_csv | unfold dot_csv
    | unfold dot_describe | unfold dot_describe
    | unfold dot_help | unfold dot_help
    | unfold dot_loadmodels | unfold dot_loadmodels
    | unfold dot_python | unfold dot_python
    | unfold dot_sql | unfold dot_sql ];
    keeps_tac.
Qed.

(** Each trace flag says what the calls on the collaborator amount to:
    in every reachable state the flag of a tracer is set exactly when
    the last of its subscriptions and unsubscriptions so far was a
    subscription.  This needs that every such call returns and the
    handler goes on to assign the flag (an interrupt in the call, or on
    the return from it, leaves the flag behind the call), and that the
    text that [.python] evaluates does not assign the flags.  Then no
    subscription is made twice in a row, and none is cancelled that was
    not made. *)
Theorem flags_mirror_the_subscriptions
    (W : World) (t : Tracer) (s : Session) :
  eval_keeps W flags_kept →
  returns W (subscribe t) →
  returns W (unsubscribe t) →
  reachable W s →
  tracing t s = subscribed t (history s).
Proof.
  intros Heval Hsub Hunsub. revert s.
  apply (reachable_carries W (in_sync t)).
  - intros s0 Hs0.
    assert (Hs : Shell_init = Some shell0) by (vm_compute; reflexivity).
    rewrite Hs in Hs0. injection Hs0 as <-. by destruct t; vm_compute.
  - intros l s0. apply (in_sync_same t s0); [by destruct t|done].
  - intros p s0. apply (in_sync_same t s0); [by destruct t|apply history_read].
  - apply in_sync_default.
  - intros m arg. by apply in_sync_invoke.
Qed.

Lemma flags_mirror_witness :
  tracing Sql toggled_session = subscribed Sql (history toggled_session).
Proof.
  apply (flags_mirror_the_subscriptions quiet_world Sql toggled_session).
  - intros h text s. split; reflexivity.
  - intros h. exists VNone. reflexivity.
  - intros h. exists VNone. reflexivity.
  - apply (cmdloop_reachable quiet_world
             [Line ".trace sql"; Line ".trace sql"; Line ".untrace sql";
              Line ".trace bql"; Line ".trace sql"; Line "select 1;"] shell0).
    apply reach_init. vm_compute. reflexivity.
Defined.

(** ** What stops the loop *)

Section Stopping.

Context (W : World).

Lemma never_stops_apply {A} (m : M A) (stop : A) (s : Session) :
  never_stops m stop → (m s).2 ≠ Ret stop.
Proof. intros H. apply H. Qed.

Lemma never_stops_ret {A} (a stop : A) : a ≠ stop → never_stops (ret a) stop.
Proof. intros Hne s [= ?]. done. Qed.

Lemma never_stops_raise {A} (tb : string) (stop : A) :
  never_stops (raise tb) stop.
Proof. by intros s. Qed.

Lemma never_stops_bind {A B} (m : M A) (k : A → M B) (stop : B) :
  (∀ a, never_stops (k a) stop) → never_stops (bind m k) stop.
Proof.
  intros Hk s. unfold bind. destruct (m s) as [s' [a| | |]]; [apply Hk|done..].
Qed.

End Stopping.

(** One step through the body of a method, for its return value. *)
Ltac stops_step :=
  match goal with
  | |- never_stops (ret _) _ => apply never_stops_ret; done
  | |- never_stops (raise _) _ => apply never_stops_raise
  | |- never_stops (bind _ _) _ => apply never_stops_bind; intros ?
  | |- never_stops (if ?b then _ else _) _ => destruct b
  | |- never_stops (match ?x with _ => _ end) _ => destruct x
  | |- never_stops (fun _ => _) _ =>
      let s := fresh "s" in intros s; cbv beta zeta
  | |- (match ?x with _ => _ end).2 ≠ _ => destruct x
  | |- (if ?b then _ else _).2 ≠ _ => destruct b
  | |- (?m ?s).2 ≠ Ret ?stop => apply (never_stops_apply m stop s)
  end.

Section Exits.

Context (W : World).

Lemma invoke_never_stops (m : Method) (arg : string) :
  never_stops (invoke W m arg) true.
Proof.
  destruct m; simpl;
    [ unfold dot_codebook | unfold dot_csv | unfold dot_describe
    | unfold dot_help | unfold dot_loadmodels | unfold dot_python
    | unfold dot_sql | unfold dot_trace | unfold dot_untrace ];
    repeat stops_step.
Qed.

Lemma default_stops (line : string) (s s' : Session) :
  default W line s = (s', Ret true) → stdout s' = stdout s ++ [farewell].
Proof.
  destruct (decide (line = "EOF")) as [->|Hne].
  { rewrite default_EOF. by intros [= <-]. }
  pose proof (default_cut W line s Hne) as Hcut. cbv zeta in Hcut.
  destruct (bql_string_complete_p W (history s) ((bql s +:+ line) +:+ nl))
    as [[|]|tb| |] eqn:Hc.
  - rewrite (default_complete W line s Hne Hc). cbv zeta.
    by destruct (ending _).
  - by rewrite (default_incomplete W line s Hne Hc).
  - by rewrite Hcut.
  - by rewrite Hcut.
  - by rewrite Hcut.
Qed.

Lemma dispatch_stops (cmd : option string) (arg line : string)
    (s s' : Session) :
  dispatch W cmd arg line s = (s', Ret true) →
  stdout s' = stdout s ++ [farewell].
Proof.
  unfold dispatch. destruct cmd as [cmd|]; [|apply default_stops].
  set (k := if decide (cmd = "") then default W line
            else λ s0, match getattr_do cmd s0 with
                       | Some Builtin_help => do_help W arg s0
                       | Some (Bound m) => invoke W m arg s0
                       | None => default W line s0
                       end).
  assert (Hany : ∀ s2, stdout s2 = stdout s →
            k s2 = (s', Ret true) → stdout s' = stdout s ++ [farewell]).
  { intros s2 Hout. subst k. case_decide.
    - intros Hd%default_stops. by rewrite <- Hout.
    - destruct (getattr_do cmd s2) as [[|m]|].
      + by intros [= _].
      + intros Hi. by destruct (invoke_never_stops m arg s2); rewrite Hi.
      + intros Hd%default_stops. by rewrite <- Hout. }
  clearbody k. unfold bind, upd, ret.
  destruct (decide (line = "EOF")); by apply Hany.
Qed.

Lemma onecmd_stops (line : string) (s s' : Session) :
  onecmd W line s = (s', Ret true) → stdout s' = stdout s ++ [farewell].
Proof.
  unfold onecmd, onecmd_at.
  destruct (parseline line) as [[cmd arg] line'].
  case_decide; [|apply dispatch_stops].
  case_decide; [by intros [= _]|].
  destruct (parseline (lastcmd s)) as [[cmd0 arg0] line0].
  case_decide; [|apply dispatch_stops].
  case_decide; [by intros [= _]|done].
Qed.

Lemma turn_stops (ev : ReadEvent) (s s' : Session) :
  turn W ev s = (s', Ret true) → stdout s' = stdout s ++ [farewell].
Proof.
  unfold turn, bind, raw_input.
  destruct ev; [| |done]; intros Ho%onecmd_stops; exact Ho.
Qed.

End Exits.



(** ** Blank lines *)

Section Blank.

Context (W : World).

Lemma parseline_strip (a b : string) :
  strip a = strip b → parseline a = parseline b.
Proof. intros H. unfold parseline. by rewrite H. Qed.

Lemma parseline_nonblank (l : string) :
  strip l ≠ "" → (parseline l).2 ≠ "".
Proof.
  intros Hl. unfold parseline. destruct (strip l) as [|c rest]; [done|].
  case_decide; [done|]. case_decide.
  - by destruct (span_ident ("help " +:+ rest)).
  - by destruct (span_ident (String c rest)).
Qed.

Lemma onecmd_at_nonblank (depth : nat) (l : string) (s : Session) :
  strip l ≠ "" → onecmd_at W depth l s = onecmd W l s.
Proof.
  intros Hl. pose proof (parseline_nonblank l Hl) as Hp.
  unfold onecmd. destruct depth as [|[|depth]]; simpl;
    destruct (parseline l) as [[cmd arg] line]; simpl in Hp;
    by case_decide.
Qed.

Lemma onecmd_at_S (depth : nat) (line : string) (s : Session) :
  onecmd_at W (S depth) line s
    = (let '(cmd, arg, line') := parseline line in
       if decide (line' = "")
       then λ s, if decide (lastcmd s = "") then ret false s
                 else onecmd_at W depth (lastcmd s) s
       else dispatch W cmd (from_option id "" arg) line') s.
Proof. reflexivity. Qed.

Lemma falls_line_is_stripped (s : Session) (raw line : string) :
  falls_to_default s raw line → line = strip raw.
Proof.
  intros (cmd & arg & Hp & _ & _ & Hcmd). unfold parseline in Hp.
  destruct (strip raw) as [|c rest]; [done|].
  case_decide; [done|]. case_decide as Hq.
  - exfalso. subst c.
    assert (Hspan : ∃ tail, span_ident ("help " +:+ rest) = ("help", tail))
      by (by eexists).
    destruct Hspan as [tail Hspan]. rewrite Hspan in Hp.
    injection Hp as <- _ _. by destruct Hcmd.
  - destruct (span_ident (String c rest)). by simplify_eq.
Qed.

Lemma onecmd_blank (s : Session) (blank : string) :
  strip blank = "" →
  (lastcmd s = "" → onecmd W blank s = (s, Ret false))
  ∧ (strip (lastcmd s) ≠ "" → onecmd W blank s = onecmd W (lastcmd s) s).
Proof.
  intros Hblank.
  assert (Hp : parseline blank = (None, None, "")).
  { unfold parseline. by rewrite Hblank. }
  split.
  - intros Hl. unfold onecmd, onecmd_at. rewrite Hp.
    case_decide; [|done]. by case_decide.
  - intros Hl.
    assert (Hne : lastcmd s ≠ "") by (by intros Hz; rewrite Hz in Hl).
    transitivity (onecmd_at W 0 (lastcmd s) s);
      [|by apply onecmd_at_nonblank].
    unfold onecmd. rewrite onecmd_at_S, Hp.
    case_decide; [|done]. by case_decide.
Qed.

End Blank.

(** An empty or blank line is not handed to the accumulator.  When no
    command was given before, it does nothing at all; otherwise it is
    handled as the last line over again, whatever that was: a statement
    line, or a command such as [.sql]. *)
Theorem blank_line_repeats_the_last_line
    (W : World) (s : Session) (blank : string) :
  strip blank = "" →
  (lastcmd s = "" → onecmd W blank s = (s, Ret false))
  ∧ (strip (lastcmd s) ≠ "" → onecmd W blank s = onecmd W (lastcmd s) s).
Proof. apply onecmd_blank. Qed.

Lemma blank_line_witness :
  (lastcmd (turn quiet_world (Line ".sql select 1") shell0).1 = "" →
   onecmd quiet_world "  " (turn quiet_world (Line ".sql select 1") shell0).1
   = ((turn quiet_world (Line ".sql select 1") shell0).1, Ret false))
  ∧ (strip (lastcmd (turn quiet_world (Line ".sql select 1") shell0).1) ≠ "" →
     onecmd quiet_world "  " (turn quiet_world (Line ".sql select 1") shell0).1
     = onecmd quiet_world
         (lastcmd (turn quiet_world (Line ".sql select 1") shell0).1)
         (turn quiet_world (Line ".sql select 1") shell0).1).
Proof.
  apply (blank_line_repeats_the_last_line quiet_world
           (turn quiet_world (Line ".sql select 1") shell0).1 "  ").
  reflexivity.
Defined.

(** What the accumulator is given is the line stripped of the blanks at
    both its ends, and this is also what is kept as the last line.  So
    when the first line of a statement has left it incomplete, a blank
    line that follows is handled exactly as that first line typed
    again. *)
Theorem statement_line_is_stripped_and_repeated_by_a_blank_line
    (W : World) (s : Session) (raw line blank : string) :
  falls_to_default s raw line →
  bql_string_complete_p W (history s) ((bql s +:+ line) +:+ nl) = Ret false →
  strip blank = "" →
  line = strip raw
  ∧ bql (turn W (Line raw) s).1 = (bql s +:+ strip raw) +:+ nl
  ∧ lastcmd (turn W (Line raw) s).1 = strip raw
  ∧ turn W (Line blank) (turn W (Line raw) s).1
    = turn W (Line raw) (turn W (Line raw) s).1.
Proof.
  intros Hfall Hinc Hblank.
  pose proof (falls_line_is_stripped s raw line Hfall) as ->.
  pose proof (turn_falls W s raw _ Hfall) as Hturn.
  destruct Hfall as (cmd & arg & Hp & Hne & Heof & Hcmd).
  rewrite <- (history_read s (prompt s)) in Hinc.
  rewrite (default_incomplete W (strip raw)
             (set_lastcmd (strip raw) (record (EvRead (prompt s)) s))
             Heof Hinc) in Hturn.
  rewrite Hturn. cbn [fst].
  split; [done|]. split; [done|]. split; [done|].
  set (s1 := set_prompt bql_prompt _).
  unfold turn, bind, raw_input.
  set (s2 := record (EvRead (prompt s1)) s1).
  assert (Hlast : lastcmd s2 = strip raw) by done.
  assert (Hstrip : strip (lastcmd s2) ≠ "") by (by rewrite Hlast, strip_idem).
  destruct (onecmd_blank W s2 blank Hblank) as [_ Hrep].
  rewrite (Hrep Hstrip), Hlast.
  unfold onecmd, onecmd_at.
  by rewrite (parseline_strip (strip raw) raw (strip_idem raw)).
Qed.

Lemma statement_line_witness :
  "select x" = strip "  select x "
  ∧ bql (turn quiet_world (Line "  select x ") shell0).1
    = (bql shell0 +:+ strip "  select x ") +:+ nl
  ∧ lastcmd (turn quiet_world (Line "  select x ") shell0).1
    = strip "  select x "
  ∧ turn quiet_world (Line "") (turn quiet_world (Line "  select x ") shell0).1
    = turn quiet_world (Line "  select x ")
        (turn quiet_world (Line "  select x ") shell0).1.
Proof.
  apply (statement_line_is_stripped_and_repeated_by_a_blank_line
           quiet_world shell0 "  select x " "select x" "").
  - exists "select", (Some "x"). split; [reflexivity|].
    split; [done|]. split; [done|]. right. reflexivity.
  - vm_compute. reflexivity.
  - reflexivity.
Defined.

(** ** Installing commands *)

(** A sequence of installations fails, with the [AssertionError] of
    [_installcmd], exactly when a name comes twice.  When it succeeds,
    the object has each name in [_cmds] and its method as the attribute,
    nothing else is registered, and the rest of the object is as
    [__init__] had set it. *)
Theorem installation_fails_exactly_on_a_repeated_name
    (l : list (string * Method)) :
  (install_all l blank = None ↔ ¬ NoDup l.*1)
  ∧ ∀ s, install_all l blank = Some s →
      registry_consistent s
      ∧ (∀ n, n ∈ cmds s ↔ n ∈ l.*1)
      ∧ (∀ n m, (n, m) ∈ l → attrs s !! n = Some m)
      ∧ prompt s = "bayeslite> " ∧ bql s = ""
      ∧ traced s = false ∧ sql_traced s = false.
Proof.
  split.
  - split.
    + intros Hnone Hnd.
      assert (H : install_all l blank = Some (installed l))
        by (by apply install_all_Some).
      by rewrite Hnone in H.
    + intros Hdup. destruct (install_all l blank) as [s|] eqn:Hs; [|done].
      by apply install_all_Some in Hs as [Hnd _].
  - intros s [Hnd ->]%install_all_Some.
    split; [apply installed_registry_consistent|].
    split; [intros n; apply elem_of_list_to_set|].
    split; [|done].
    intros n m Hin. by apply elem_of_list_to_map_1.
Qed.

(** ** What else ends a session, and what an interrupt leaves behind *)

(** A [SystemExit] raised by the text that [.python] evaluates (as
    [exit()] does) is no [Exception] and no [KeyboardInterrupt]: it
    passes the [except Exception] of the handler, nothing is written
    for it, it passes the [except KeyboardInterrupt] of
    [Shell.cmdloop], and the session is over with the rest of the input
    unread. *)
Theorem python_exit_ends_the_session
    (W : World) (s : Session) (raw line arg : string)
    (rest : list ReadEvent) :
  parseline raw = (Some ".python", Some arg, line) →
  attrs s !! "python" = Some MPython →
  ending (respond W (history s) (PyEval arg)) = Exiting →
  ∃ s',
    cmdloop_from W (Line raw :: rest) s = (s', Terminated)
    ∧ stdout s' = stdout s ++ written (respond W (history s) (PyEval arg))
    ∧ journal s' = journal s ++ [EvRead (prompt s); EvCall (PyEval arg)].
Proof.
  intros Hp Ha Hend.
  set (s1 := set_lastcmd line (record (EvRead (prompt s)) s)).
  assert (Hf : getattr_do ".python" s = Some (Bound MPython)).
  { unfold getattr_do. case_decide; [done|]. case_decide; [|done].
    by rewrite Ha. }
  pose proof (turn_bound W s raw ".python" line (Some arg) _ Hp Hf) as Hturn.
  cbv zeta in Hturn. fold s1 in Hturn. simpl in Hturn.
  assert (Hh : history s1 = history s) by apply (history_read s).
  rewrite guarded_eval in Hturn. cbv zeta in Hturn.
  rewrite Hh, Hend in Hturn.
  eexists. split; [by rewrite cmdloop_from_cons, Hturn|]. split.
  - simpl. by rewrite <- Hh.
  - simpl. by rewrite <- app_assoc.
Qed.

Lemma python_exit_witness :
  ∃ s',
    cmdloop_from (sample_world Exiting)
      (Line ".python exit()" :: [Line ".help"]) shell0
    = (s', Terminated)
    ∧ stdout s'
      = stdout shell0
        ++ written (respond (sample_world Exiting) (history shell0)
                      (PyEval "exit()"))
    ∧ journal s'
      = journal shell0 ++ [EvRead (prompt shell0); EvCall (PyEval "exit()")].
Proof.
  apply (python_exit_ends_the_session
           (sample_world Exiting) shell0 ".python exit()" ".python exit()"
           "exit()" [Line ".help"]).
  - reflexivity.
  - vm_compute. reflexivity.
  - reflexivity.
Defined.

(** The line is appended to the buffer before the completeness
    predicate is asked.  So when a [KeyboardInterrupt] cuts that call,
    the line and its line feed stay in the buffer, the prompt is not
    assigned, and nothing is executed or written; the loop writes [^C]
    and the next read shows the prompt that was shown before.  After an
    interrupt in the idle state a statement is pending under the default
    prompt. *)
Theorem interrupted_check_keeps_the_line
    (W : World) (s : Session) (raw line : string) (rest : list ReadEvent) :
  falls_to_default s raw line →
  bql_string_complete_p W (history s) ((bql s +:+ line) +:+ nl) = Interrupt →
  ∃ s',
    turn W (Line raw) s = (s', Interrupt)
    ∧ bql s' = (bql s +:+ line) +:+ nl
    ∧ prompt s' = prompt s
    ∧ stdout s' = stdout s
    ∧ journal s' = journal s ++ [EvRead (prompt s)]
    ∧ cmdloop_from W (Line raw :: rest) s
      = cmdloop_from W rest (put ("^C" +:+ nl) s')
    ∧ ∀ ev, journal (raw_input ev (put ("^C" +:+ nl) s')).1
            = journal s' ++ [EvRead (prompt s)].
Proof.
  intros Hfall Hcut.
  pose proof (turn_falls W s raw line Hfall) as Hturn.
  destruct Hfall as (cmd & arg & _ & _ & Heof & _).
  set (s1 := set_lastcmd line (record (EvRead (prompt s)) s)) in *.
  assert (Hh : history s1 = history s) by apply (history_read s).
  pose proof (default_cut W line s1 Heof) as Hd. cbv zeta in Hd.
  rewrite Hh in Hd. change (bql s1) with (bql s) in Hd.
  rewrite Hcut in Hd.
  eexists. split; [by rewrite Hturn, Hd|].
  split; [done|]. split; [done|]. split; [done|]. split; [done|].
  split; [by rewrite cmdloop_from_cons, Hturn, Hd|].
  intros ev. by destruct ev.
Qed.

Lemma interrupted_check_witness :
  ∃ s',
    turn (cut_world Interrupt) (Line "select 1;") shell0 = (s', Interrupt)
    ∧ bql s' = (bql shell0 +:+ "select 1;") +:+ nl
    ∧ prompt s' = prompt shell0
    ∧ stdout s' = stdout shell0
    ∧ journal s' = journal shell0 ++ [EvRead (prompt shell0)]
    ∧ cmdloop_from (cut_world Interrupt) (Line "select 1;" :: [EndOfInput])
        shell0
      = cmdloop_from (cut_world Interrupt) [EndOfInput]
          (put ("^C" +:+ nl) s')
    ∧ ∀ ev, journal (raw_input ev (put ("^C" +:+ nl) s')).1
            = journal s' ++ [EvRead (prompt shell0)].
Proof.
  apply (interrupted_check_keeps_the_line
           (cut_world Interrupt) shell0 "select 1;" "select 1;" [EndOfInput]).
  - apply select_falls.
  - reflexivity.
Defined.
